(** * A TF-IDF search engine (src/main.py): shallow embedding and verification

    The development follows the Python source function by function:
    - Python [str] values are lists of Unicode code points;
    - Python [dict]s are insertion-ordered association lists with unique keys
      (the vocabulary is [list(df_table.keys())], so the order is observable);
    - [Document] objects live in a heap and are referred to by location, as
      the methods of [TFIDF_Engine] mutate them in place;
    - methods are computations in a state-and-exception monad;
    - Python's floating-point operations are the operations of an interface
      [PyFloat]; the few arithmetic facts the proofs rely on are collected in
      [PyFloatLaws].  The real numbers are an instance of both, and binary64
      floats an instance of the first, on which the definitions run. *)

From Stdlib Require Import ZArith List Bool Lia String Ascii Reals Lra.
From Stdlib Require Import Sorted Permutation.
From Corelib Require PrimFloat FloatOps SpecFloat.
From stdpp Require Import base tactics option numbers sorting list.

#[local] Open Scope Z_scope.

(** ** Strings *)

(** A character is its code point ([ord(c)]); a [str] is a sequence of them. *)
Definition char := Z.
Definition str := list char.

(** String literals, for the examples. *)
Definition of_string (s : string) : str :=
  map (fun a => Z.of_nat (nat_of_ascii a)) (list_ascii_of_string s).

(** [re.match("[a-zA-Z0-9]", str(c)) != None] *)
Definition re_alnum (c : char) : bool :=
  ((97 <=? c) && (c <=? 122)) || ((65 <=? c) && (c <=? 90)) || ((48 <=? c) && (c <=? 57)).

(** The condition of the [if] in the loop of [tokenize]:
    alphanumeric, or one of ['], [_], [-]. *)
Definition is_word_char (c : char) : bool :=
  re_alnum c || (c =? 39) || (c =? 95) || (c =? 45).

(** The characters [str.strip()] removes: those for which [str.isspace] holds. *)
Definition isspace (c : char) : bool :=
  ((9 <=? c) && (c <=? 13)) || ((28 <=? c) && (c <=? 32)) || (c =? 133) || (c =? 160)
  || (c =? 5760) || ((8192 <=? c) && (c <=? 8202)) || (c =? 8232) || (c =? 8233)
  || (c =? 8239) || (c =? 8287) || (c =? 12288).

(** [c.strip()] for a one-character string [c]. *)
Definition strip (c : char) : str := if isspace c then [] else [c].

Definition lower_char (c : char) : char :=
  if (65 <=? c) && (c <=? 90) then c + 32 else c.

(** [token.lower()].  [tokenize] only lower-cases runs of characters accepted
    by [is_word_char] (lemma [scan_run_word_chars]), on which [str.lower] is
    ASCII lower-casing. *)
Definition lower (s : str) : str := map lower_char s.

(** ** Dictionaries *)

(** [Dict[str, int]]: keys in insertion order, each key once. *)
Definition dict := list (str * Z).

(** [d[k]]; [None] stands for [KeyError]. *)
Fixpoint dict_get (k : str) (d : dict) : option Z :=
  match d with
  | [] => None
  | (k', v) :: d' => if decide (k = k') then Some v else dict_get k d'
  end.

(** [k in d] *)
Definition dict_mem (k : str) (d : dict) : bool :=
  match dict_get k d with Some _ => true | None => false end.

(** [d[k] = v]: an existing key keeps its position, a new key goes last. *)
Fixpoint dict_set (k : str) (v : Z) (d : dict) : dict :=
  match d with
  | [] => [(k, v)]
  | (k', v') :: d' => if decide (k = k') then (k, v) :: d' else (k', v') :: dict_set k v d'
  end.

(** [list(d.keys())], also the order in which [for k in d] visits the keys. *)
Definition dict_keys (d : dict) : list str := map fst d.

(** The counting idiom of the source, used by [tokenize] and by
    [create_df_table]:
    [if t in d: d[t] += 1 else: d[t] = 1]. *)
Definition dict_count (d : dict) (t : str) : dict :=
  if dict_mem t d then
    match dict_get t d with
    | Some n => dict_set t (n + 1) d
    | None => d
    end
  else dict_set t 1 d.

(** ** The tokenizer *)

(** One iteration of [for c in text], on the loop state [(tokens, token)]. *)
Definition tokenize_step (st : list str * str) (c : char) : list str * str :=
  let '(tokens, token) := st in
  if is_word_char c then (tokens, token ++ [c])
  else
    let '(tokens, token) :=
      if decide (token ≠ []) then (tokens ++ [lower token], []) else (tokens, token) in
    let tokens :=
      if decide (strip c ≠ []) then tokens ++ [strip c] else tokens in
    (tokens, token).

(** The token list of [tokenize], after the flush that follows the loop. *)
Definition tokenize_tokens (text : str) : list str :=
  let '(tokens, token) := fold_left tokenize_step text ([], []) in
  if decide (token ≠ []) then tokens ++ [lower token] else tokens.

(** [TFIDF_Engine.tokenize]. *)
Definition tokenize (text : str) : dict :=
  fold_left dict_count (tokenize_tokens text) [].

(** *** The reference scan of the specification *)

(** The tokens emitted when a run is closed. *)
Definition emit_run (run : str) : list str :=
  match run with [] => [] | _ => [lower run] end.

(** The tokens emitted for a breaking character. *)
Definition emit_break (c : char) : list str :=
  if isspace c then [] else [[c]].

(** The scan in the specification's words: accumulate a run while the
    characters are word characters; at any other character emit the pending
    run and the character itself unless it is whitespace; flush at the end. *)
Fixpoint ref_scan (run : str) (text : str) : list str :=
  match text with
  | [] => emit_run run
  | c :: rest =>
      if is_word_char c then ref_scan (run ++ [c]) rest
      else emit_run run ++ emit_break c ++ ref_scan [] rest
  end.

(** The number of times a token was emitted. *)
Definition occurrences (t : str) (tokens : list str) : Z :=
  Z.of_nat (length (filter (fun t' => t' = t) tokens)).

(** The mapping the specification describes, as a lookup: a token maps to its
    number of occurrences, and a token that was never emitted is not a key. *)
Definition ref_mapping (text : str) (t : str) : option Z :=
  let n := occurrences t (ref_scan [] text) in
  if n =? 0 then None else Some n.

(** ** Python floats *)

(** The arithmetic [main.py] uses.  [of_int] is the conversion of a Python
    [int]; the literal [0] that the source appends to term vectors and
    returns from [calculate_cosine_sim] is [of_int 0] (in Python [0 == 0.0],
    and the two behave alike under [+], [*], [<] and [math.sqrt]).
    [fln] and [fsqrt] are [math.log] and [math.sqrt] on their domain; the
    exceptions outside of it are raised by [math_log] and [math_sqrt]
    below. *)
Class PyFloat (F : Type) := {
  of_int : Z → F;
  fadd : F → F → F;
  fmul : F → F → F;
  fdiv : F → F → F;
  fln : F → F;
  fsqrt : F → F;
  feqb : F → F → bool;
  fltb : F → F → bool
}.

(** [x <= y] *)
Definition fleb {F} `{PyFloat F} (x y : F) : bool := fltb x y || feqb x y.

(** The properties of the arithmetic that the proofs use.  They are
    properties of the real numbers (instance [PyFloatLaws_R]); binary64
    floats have them on numbers that are not NaN and as long as no sum
    overflows and no quotient or product underflows to zero, which is the
    case for the weights and similarities of any corpus that fits in
    memory. *)
Class PyFloatLaws (F : Type) `{PyFloat F} : Prop := {
  (** [<] is a strict weak order *)
  fltb_asym : ∀ x y, fltb x y = true → fltb y x = false;
  fltb_negtrans : ∀ x y z, fltb x y = true → fltb x z = true ∨ fltb z y = true;
  (** the quotient of two positive integers is positive *)
  fdiv_pos : ∀ n d, 0 < n → 0 < d → fleb (fdiv (of_int n) (of_int d)) (of_int 0) = false;
  (** a sum of squares is not negative *)
  fmul_square : ∀ a, fltb (fmul a a) (of_int 0) = false;
  fadd_nonneg : ∀ x y,
    fltb x (of_int 0) = false → fltb y (of_int 0) = false →
    fltb (fadd x y) (of_int 0) = false;
  (** a product of two non-zero numbers is not zero *)
  fmul_nonzero : ∀ x y,
    feqb x (of_int 0) = false → feqb y (of_int 0) = false →
    feqb (fmul x y) (of_int 0) = false;
  (** zero *)
  fmul_0_0 : fmul (of_int 0) (of_int 0) = of_int 0;
  fadd_0_0 : fadd (of_int 0) (of_int 0) = of_int 0;
  fsqrt_0 : feqb (fsqrt (of_int 0)) (of_int 0) = true
}.

(** ** Objects, state and exceptions *)

Inductive exn := KeyError | ValueError | ZeroDivisionError | IndexError.

(** A heap location holding a [Document] object. *)
Abbreviation loc := nat (only parsing).

Section Engine.
Context {F : Type} `{PyFloat F}.

(** [class Document]. *)
Record Document := mkDocument {
  text : str;
  terms : dict;
  term_vector : list F
}.

(** [Document()] *)
Definition Document_init : Document :=
  {| text := []; terms := []; term_vector := [] |}.

#[global] Instance Document_inhabited : Inhabited Document := populate Document_init.

(** [Document.__str__]: [self.text[:500]] *)
Definition Document_str (d : Document) : str := take 500 (text d).

(** [class TFIDF_Engine]; [documents] holds references to [Document]
    objects.  ([corpus_location] only matters to the file system.) *)
Record TFIDF_Engine := mkEngine {
  documents : list loc;
  N : Z;
  df_table : dict;
  term_vector_words : list str
}.

(** [TFIDF_Engine()] *)
Definition TFIDF_Engine_init : TFIDF_Engine :=
  {| documents := []; N := 0; df_table := []; term_vector_words := [] |}.

(** What [query_loop] prints, one value per [print] call. *)
Inductive output :=
| Welcome
| Blank
| ResultsHeader
| ResultScore (i : Z) (score : F)
| ResultDocument (preview : str)
| SoLong.

(** The program state: the [Document] objects, the engine [self], and the
    lines printed so far. *)
Record world := mkWorld {
  heap : list Document;
  self : TFIDF_Engine;
  stdout : list output
}.

(** The state of [t = TFIDF_Engine()] at the start of the program. *)
Definition init_world : world :=
  {| heap := []; self := TFIDF_Engine_init; stdout := [] |}.

(** A computation returns a value and a new state, or raises. *)
Inductive result (A : Type) :=
| Ok (a : A) (w : world)
| Raise (e : exn).
#[global] Arguments Ok {A} a w.
#[global] Arguments Raise {A} e.

Definition M (A : Type) : Type := world → result A.

#[global] Instance M_ret : MRet M := λ A a w, Ok a w.
#[global] Instance M_bind : MBind M := λ A B f m w,
  match m w with
  | Ok a w' => f a w'
  | Raise e => Raise e
  end.

Definition raise {A} (e : exn) : M A := λ _, Raise e.

(** [for x in l: body] *)
Fixpoint for_each {X} (l : list X) (body : X → M unit) : M unit :=
  match l with
  | [] => mret tt
  | x :: l' => body x ;; for_each l' body
  end.

(** A [for] loop that updates a local variable [s]. *)
Fixpoint for_fold {X S} (l : list X) (body : S → X → M S) (s : S) : M S :=
  match l with
  | [] => mret s
  | x :: l' => s' ← body s x; for_fold l' body s'
  end.

(** *** Reading and writing the state *)

Definition get_self : M TFIDF_Engine := λ w, Ok (self w) w.

Definition set_self (e : TFIDF_Engine) : M unit := λ w,
  Ok tt {| heap := heap w; self := e; stdout := stdout w |}.

(** The object at [d]. *)
Definition load (d : loc) : M Document := λ w, Ok (heap w !!! d) w.

Definition store (d : loc) (doc : Document) : M unit := λ w,
  Ok tt {| heap := <[d := doc]> (heap w); self := self w; stdout := stdout w |}.

(** [Document()]: a new object, at a location not used before. *)
Definition Document_new : M loc := λ w,
  Ok (length (heap w))
     {| heap := heap w ++ [Document_init]; self := self w; stdout := stdout w |}.

Definition print (o : output) : M unit := λ w,
  Ok tt {| heap := heap w; self := self w; stdout := stdout w ++ [o] |}.

(** [d.text = t] *)
Definition set_text (d : loc) (t : str) : M unit :=
  doc ← load d;
  store d {| text := t; terms := terms doc; term_vector := term_vector doc |}.

(** [d.terms = ts] *)
Definition set_terms (d : loc) (ts : dict) : M unit :=
  doc ← load d;
  store d {| text := text doc; terms := ts; term_vector := term_vector doc |}.

(** [d.term_vector = v] *)
Definition set_term_vector (d : loc) (v : list F) : M unit :=
  doc ← load d;
  store d {| text := text doc; terms := terms doc; term_vector := v |}.

(** [d.term_vector.append(x)] *)
Definition term_vector_append (d : loc) (x : F) : M unit :=
  doc ← load d;
  store d {| text := text doc; terms := terms doc; term_vector := term_vector doc ++ [x] |}.

(** [self.documents.append(d)] *)
Definition documents_append (d : loc) : M unit :=
  e ← get_self;
  set_self {| documents := documents e ++ [d]; N := N e;
              df_table := df_table e; term_vector_words := term_vector_words e |}.

(** [self.N = n] *)
Definition set_N (n : Z) : M unit :=
  e ← get_self;
  set_self {| documents := documents e; N := n;
              df_table := df_table e; term_vector_words := term_vector_words e |}.

(** [self.df_table[...] = ...]: the table after the assignment is [t]. *)
Definition set_df_table (t : dict) : M unit :=
  e ← get_self;
  set_self {| documents := documents e; N := N e;
              df_table := t; term_vector_words := term_vector_words e |}.

(** [self.term_vector_words = ws] *)
Definition set_term_vector_words (ws : list str) : M unit :=
  e ← get_self;
  set_self {| documents := documents e; N := N e;
              df_table := df_table e; term_vector_words := ws |}.

(** *** Operations that can raise *)

(** [d[k]] *)
Definition dict_lookup (k : str) (d : dict) : M Z :=
  match dict_get k d with
  | Some v => mret v
  | None => raise KeyError
  end.

(** [l[i]], with Python's negative indices. *)
Definition list_index {A} (l : list A) (i : Z) : M A :=
  let j := if i <? 0 then i + Z.of_nat (length l) else i in
  if j <? 0 then raise IndexError
  else match l !! Z.to_nat j with
       | Some x => mret x
       | None => raise IndexError
       end.

(** [math.log(c)] for an [int] [c] *)
Definition math_log_int (c : Z) : M F :=
  if c <=? 0 then raise ValueError else mret (fln (of_int c)).

(** [math.log(x)] for a [float] [x] *)
Definition math_log (x : F) : M F :=
  if fleb x (of_int 0) then raise ValueError else mret (fln x).

(** [math.sqrt(x)] *)
Definition math_sqrt (x : F) : M F :=
  if fltb x (of_int 0) then raise ValueError else mret (fsqrt x).

(** [n / d] for two [int]s *)
Definition int_truediv (n d : Z) : M F :=
  if d =? 0 then raise ZeroDivisionError else mret (fdiv (of_int n) (of_int d)).

(** [x / y] for two [float]s *)
Definition truediv (x y : F) : M F :=
  if feqb y (of_int 0) then raise ZeroDivisionError else mret (fdiv x y).

(** [sum(...)]: starts from [0] and adds from left to right. *)
Definition py_sum (l : list F) : F := fold_left fadd l (of_int 0).

(** [enumerate(l)] *)
Definition enumerate {A} (l : list A) : list (Z * A) :=
  imap (λ i x, (Z.of_nat i, x)) l.

(** [range(n)] *)
Definition range (n : nat) : list Z := map Z.of_nat (seq 0 n).

(** ** The methods of [TFIDF_Engine] *)

(** [read_files], given the texts of the files that were read, in the order
    of the directory listing (a file that cannot be read is skipped by the
    source; its diagnostic messages are left out). *)
Definition read_files (texts : list str) : M unit :=
  for_each texts (λ text,
    doc ← Document_new;
    set_text doc text;;
    set_terms doc (tokenize text);;
    documents_append doc);;
  e ← get_self;
  set_N (Z.of_nat (length (documents e))).

Definition create_df_table : M unit :=
  e ← get_self;
  for_each (documents e) (λ doc,
    d ← load doc;
    for_each (dict_keys (terms d)) (λ term,
      e ← get_self;
      set_df_table (dict_count (df_table e) term)));;
  e ← get_self;
  set_term_vector_words (dict_keys (df_table e)).

Definition create_term_vector (d : loc) : M unit :=
  set_term_vector d [];;
  e ← get_self;
  for_each (term_vector_words e) (λ term,
    doc ← load d;
    if dict_mem term (terms doc) then
      c ← dict_lookup term (terms doc);
      l ← math_log_int c;
      let tf := fadd (of_int 1) l in
      e ← get_self;
      df ← dict_lookup term (df_table e);
      q ← int_truediv (N e) df;
      idf ← math_log q;
      term_vector_append d (fmul tf idf)
    else
      term_vector_append d (of_int 0)).

Definition create_term_vectors : M unit :=
  e ← get_self;
  for_each (documents e) create_term_vector.

Definition calculate_cosine_sim (d1 d2 : loc) : M F :=
  doc1 ← load d1;
  doc2 ← load d2;
  let dot_product := py_sum (zip_with fmul (term_vector doc1) (term_vector doc2)) in
  magnitude_d1 ← math_sqrt (py_sum (map (λ a, fmul a a) (term_vector doc1)));
  magnitude_d2 ← math_sqrt (py_sum (map (λ b, fmul b b) (term_vector doc2)));
  if feqb magnitude_d1 (of_int 0) || feqb magnitude_d2 (of_int 0) then mret (of_int 0)
  else truediv dot_product (fmul magnitude_d1 magnitude_d2).

(** *** [results.sort(key=lambda x: x[0], reverse=True)]

    [list.sort] is stable and compares keys with [<] only; with
    [reverse=True] it reverses the list, sorts it in ascending order and
    reverses the outcome.  For a strict weak order the outcome of a stable
    sort does not depend on the algorithm; this is insertion sort, which
    CPython also runs on short lists. *)
Fixpoint sort_insert (x : F * Z) (l : list (F * Z)) : list (F * Z) :=
  match l with
  | [] => [x]
  | y :: l' => if fltb x.1 y.1 then x :: y :: l' else y :: sort_insert x l'
  end.

Definition sort_by_key (l : list (F * Z)) : list (F * Z) :=
  fold_left (λ acc x, sort_insert x acc) l [].

Definition sort_by_key_reverse (l : list (F * Z)) : list (F * Z) :=
  reverse (sort_by_key (reverse l)).

Definition get_results (query : str) : M (list (F * Z)) :=
  query_doc ← Document_new;
  set_text query_doc query;;
  set_terms query_doc (tokenize query);;
  create_term_vector query_doc;;
  e ← get_self;
  results ← for_fold (enumerate (documents e)) (λ results '(idx, doc),
    similarity ← calculate_cosine_sim query_doc doc;
    mret (results ++ [(similarity, idx)])) [];
  mret (sort_by_key_reverse results).

(** The body of [while True] in [query_loop], once per line of input;
    [input] raises [EOFError] when the input is exhausted, which the loop
    catches to [break].  No other exception is caught. *)
Fixpoint query_loop_body (inputs : list str) : M unit :=
  match inputs with
  | [] => print Blank
  | query :: inputs' =>
      print Blank;;
      sim_scores ← get_results query;
      print ResultsHeader;;
      for_each (range 5) (λ i,
        r ← list_index sim_scores i;
        print (ResultScore i r.1);;
        r' ← list_index sim_scores i;
        e ← get_self;
        doc ← list_index (documents e) r'.2;
        d ← load doc;
        print (ResultDocument (Document_str d)));;
      query_loop_body inputs'
  end.

Definition query_loop (inputs : list str) : M unit :=
  print Welcome;;
  query_loop_body inputs;;
  print SoLong.

(** The set-up of the [__main__] block: read the corpus, build the
    document-frequency table and the vocabulary, build the term vectors. *)
Definition index_corpus (texts : list str) : M unit :=
  read_files texts;;
  create_df_table;;
  create_term_vectors.

End Engine.

#[global] Arguments Document F : clear implicits.
#[global] Arguments world F : clear implicits.
#[global] Arguments result F A : clear implicits.
#[global] Arguments M F A : clear implicits.
#[global] Arguments output F : clear implicits.

(** ** The real numbers as Python floats *)

#[global] Instance R_eq_dec : EqDecision R := Req_dec_T.
#[global] Instance Rlt_decision (x y : R) : Decision (x < y)%R := Rlt_dec x y.

#[global] Instance PyFloat_R : PyFloat R := {|
  of_int := IZR;
  fadd := Rplus;
  fmul := Rmult;
  fdiv := Rdiv;
  fln := ln;
  fsqrt := sqrt;
  feqb x y := bool_decide (x = y);
  fltb x y := bool_decide (x < y)%R
|}.

(** * Verification *)

(** ** Dictionaries *)

Lemma dict_mem_get k d : dict_mem k d = true ↔ is_Some (dict_get k d).
Proof.
  unfold dict_mem. destruct (dict_get k d); split; try done; eauto.
Qed.

Lemma dict_mem_keys k d : dict_mem k d = true ↔ k ∈ dict_keys d.
Proof.
  unfold dict_mem, dict_keys. induction d as [|[k' v] d IH]; simpl.
  - split; [done | intros ?%elem_of_nil; done].
  - case_decide; subst.
    + split; [intros _; left | done].
    + rewrite IH. split; [by right | ]. intros [?|?]%elem_of_cons; done.
Qed.

Lemma dict_get_set k k' v d :
  dict_get k (dict_set k' v d) = if decide (k = k') then Some v else dict_get k d.
Proof.
  induction d as [|[k0 v0] d IH]; simpl.
  - repeat case_decide; done.
  - repeat (case_decide; simpl; subst); try done.
Qed.

Lemma dict_keys_set k v d :
  dict_keys (dict_set k v d) = if dict_mem k d then dict_keys d else dict_keys d ++ [k].
Proof.
  unfold dict_mem, dict_keys. induction d as [|[k0 v0] d IH]; simpl; [done|].
  case_decide; subst; simpl; [done|].
  rewrite IH. destruct (dict_get k d); done.
Qed.

Lemma dict_get_count k d t :
  dict_get k (dict_count d t) =
  if decide (k = t) then Some (default 0 (dict_get t d) + 1) else dict_get k d.
Proof.
  unfold dict_count, dict_mem.
  destruct (dict_get t d) as [n|] eqn:E; rewrite dict_get_set; case_decide; done.
Qed.

Lemma dict_keys_count d t :
  dict_keys (dict_count d t) = if dict_mem t d then dict_keys d else dict_keys d ++ [t].
Proof.
  unfold dict_count. unfold dict_mem at 1.
  destruct (dict_get t d) as [n|] eqn:E; rewrite dict_keys_set; done.
Qed.

Lemma dict_count_NoDup d t : NoDup (dict_keys d) → NoDup (dict_keys (dict_count d t)).
Proof.
  intros Hd. rewrite dict_keys_count. destruct (dict_mem t d) eqn:E; [done|].
  apply NoDup_app. split_and!; [done | | apply NoDup_singleton].
  intros x Hx ->%list_elem_of_singleton.
  apply dict_mem_keys in Hx. congruence.
Qed.

Lemma occurrences_nil t : occurrences t [] = 0.
Proof. done. Qed.

Lemma occurrences_cons t t' ts :
  occurrences t (t' :: ts) = (if decide (t' = t) then 1 else 0) + occurrences t ts.
Proof.
  unfold occurrences. rewrite filter_cons. case_decide; simpl; lia.
Qed.

Lemma occurrences_app t ts1 ts2 :
  occurrences t (ts1 ++ ts2) = occurrences t ts1 + occurrences t ts2.
Proof. unfold occurrences. rewrite filter_app, length_app. lia. Qed.

Lemma occurrences_nonneg t ts : 0 ≤ occurrences t ts.
Proof. unfold occurrences. lia. Qed.

(** A dictionary in which every count is positive. *)
Definition counts_positive (d : dict) : Prop := Forall (λ kv, 0 < kv.2) d.

(** Counting a list of tokens into a dictionary adds, to each key, the
    number of its occurrences. *)
Lemma dict_get_fold_count k ts d :
  dict_get k (fold_left dict_count ts d) =
  match dict_get k d with
  | Some n => Some (n + occurrences k ts)
  | None => if occurrences k ts =? 0 then None else Some (occurrences k ts)
  end.
Proof.
  revert d. induction ts as [|t ts IH]; intros d; simpl.
  - rewrite occurrences_nil. destruct (dict_get k d); [f_equal; lia | done].
  - rewrite IH, dict_get_count, occurrences_cons.
    pose proof (occurrences_nonneg k ts).
    case_decide; subst.
    + rewrite decide_True by done.
      destruct (dict_get t d); simpl.
      * f_equal; lia.
      * destruct (1 + occurrences t ts =? 0) eqn:E; [lia | f_equal; lia].
    + rewrite decide_False by done. done.
Qed.

Lemma fold_count_NoDup ts d :
  NoDup (dict_keys d) → NoDup (dict_keys (fold_left dict_count ts d)).
Proof.
  revert d. induction ts as [|t ts IH]; intros d Hd; simpl; [done|].
  apply IH, dict_count_NoDup, Hd.
Qed.

(** ** The tokenizer *)

(** The state of the loop after the flush: what [tokenize] would count if the
    text ended here. *)
Definition flush (st : list str * str) : list str :=
  if decide (st.2 ≠ []) then st.1 ++ [lower st.2] else st.1.

Lemma flush_emit_run tokens token : flush (tokens, token) = tokens ++ emit_run token.
Proof.
  unfold flush; simpl. destruct token; simpl; [by rewrite app_nil_r | done].
Qed.

Lemma strip_emit_break tokens c :
  (if decide (strip c ≠ []) then tokens ++ [strip c] else tokens) = tokens ++ emit_break c.
Proof.
  unfold strip, emit_break. destruct (isspace c); simpl; [by rewrite app_nil_r | done].
Qed.

(** The loop of the source, started in any state, appends the tokens of the
    reference scan started with the same pending run. *)
Lemma tokenize_loop_ref_scan text tokens token :
  flush (fold_left tokenize_step text (tokens, token)) = tokens ++ ref_scan token text.
Proof.
  revert tokens token. induction text as [|c text IH]; intros tokens token; simpl.
  - apply flush_emit_run.
  - destruct (is_word_char c) eqn:Ec; [apply IH|].
    destruct token as [|c0 token]; simpl.
    + rewrite strip_emit_break, IH. by rewrite <- app_assoc.
    + rewrite strip_emit_break, IH. by rewrite <- !app_assoc.
Qed.

Lemma tokenize_tokens_ref_scan text : tokenize_tokens text = ref_scan [] text.
Proof.
  unfold tokenize_tokens.
  change (ref_scan [] text) with ([] ++ ref_scan [] text).
  rewrite <- tokenize_loop_ref_scan. unfold tokenize_tokens, flush.
  by destruct (fold_left _ _ _).
Qed.

(** The pending run only ever holds characters accepted by [is_word_char],
    so [lower] is only applied to such runs. *)
Lemma scan_run_word_chars text tokens token :
  Forall (λ c, is_word_char c = true) token →
  Forall (λ c, is_word_char c = true) (fold_left tokenize_step text (tokens, token)).2.
Proof.
  revert tokens token. induction text as [|c text IH]; intros tokens token Ht; simpl; [done|].
  destruct (is_word_char c) eqn:Ec.
  - apply IH. apply Forall_app; split; [done | by constructor].
  - destruct token; simpl; apply IH; done.
Qed.

Lemma tokenize_get text t :
  dict_get t (tokenize text) = ref_mapping text t.
Proof.
  unfold tokenize, ref_mapping.
  rewrite dict_get_fold_count, tokenize_tokens_ref_scan. done.
Qed.

Lemma tokenize_NoDup text : NoDup (dict_keys (tokenize text)).
Proof. apply fold_count_NoDup. constructor. Qed.

Lemma tokenize_counts_positive text : counts_positive (tokenize text).
Proof.
  pose proof (tokenize_get text) as Hg. pose proof (tokenize_NoDup text) as Hn.
  unfold counts_positive. apply Forall_forall. intros [k v] Hin. simpl.
  assert (dict_get k (tokenize text) = Some v) as Hk.
  { clear Hg. induction (tokenize text) as [|[k' v'] d IH]; [by apply elem_of_nil in Hin|].
    simpl in *. apply NoDup_cons in Hn as [Hk' Hn].
    apply elem_of_cons in Hin as [Heq|Hin].
    - inversion Heq; subst. by rewrite decide_True.
    - rewrite decide_False; [by apply IH|].
      intros ->. apply Hk'. unfold dict_keys.
      apply list_elem_of_fmap. by exists (k', v). }
  rewrite Hg in Hk. unfold ref_mapping in Hk.
  pose proof (occurrences_nonneg k (ref_scan [] text)).
  destruct (occurrences k (ref_scan [] text) =? 0) eqn:E; [done|].
  inversion Hk. lia.
Qed.

(** C2.  For every input string, [tokenize] returns the token-to-count
    mapping of the reference scan: its keys are distinct and each token maps
    to the number of times the scan emits it (a token that is never emitted
    is not a key).  The scan accumulates a run of ASCII alphanumerics,
    apostrophes, underscores and hyphens; any other character closes the
    run, which is emitted lower-cased if it is not empty, and is emitted
    itself, as it is, unless it is whitespace; the run pending at the end is
    flushed.  In particular the empty string gives the empty mapping and
    ["a, b"] gives [{"a": 1, ",": 1, "b": 1}]. *)
Theorem tokenize_refines_reference_scan :
  (∀ text,
     NoDup (dict_keys (tokenize text)) ∧
     ∀ t, dict_get t (tokenize text) = ref_mapping text t) ∧
  tokenize [] = [] ∧
  tokenize (of_string "a, b") = [(of_string "a", 1); (of_string ",", 1); (of_string "b", 1)].
Proof.
  split_and!; [|done..].
  intros text. split; [apply tokenize_NoDup | apply tokenize_get].
Qed.

(** ** Running computations *)

Section Run.
Context {F : Type} `{PyFloat F}.

Lemma bind_run {A B} (m : M F A) (f : A → M F B) (w : world F) :
  (m ≫= f) w = match m w with Ok a w' => f a w' | Raise e => Raise e end.
Proof. done. Qed.

Lemma ret_run {A} (a : A) (w : world F) : mret (M := M F) a w = Ok a w.
Proof. done. Qed.

(** *** The heap *)

Lemma lookup_total_alloc (h : list (Document F)) (x : Document F) :
  (h ++ [x]) !!! length h = x.
Proof. by apply list_lookup_total_middle. Qed.

Lemma insert_alloc (h : list (Document F)) (x y : Document F) :
  <[length h := y]> (h ++ [x]) = h ++ [y].
Proof.
  rewrite insert_app_r_alt by done. by rewrite Nat.sub_diag.
Qed.

(** *** Updates of the state *)

(** The state in which the object at [d] is [doc]. *)
Definition with_doc (d : loc) (doc : Document F) (w : world F) : world F :=
  {| heap := <[d := doc]> (heap w); self := self w; stdout := stdout w |}.

(** The state in which the engine is [e]. *)
Definition with_self (e : TFIDF_Engine) (w : world F) : world F :=
  {| heap := heap w; self := e; stdout := stdout w |}.

(** An engine with another document-frequency table. *)
Definition with_df_table (t : dict) (e : TFIDF_Engine) : TFIDF_Engine :=
  {| documents := documents e; N := N e; df_table := t;
     term_vector_words := term_vector_words e |}.

(** A document with another term vector. *)
Definition with_term_vector (v : list F) (doc : Document F) : Document F :=
  {| text := text doc; terms := terms doc; term_vector := v |}.

(** ** [read_files] *)

(** The object [read_files] creates for a text. *)
Definition new_document (t : str) : Document F :=
  {| text := t; terms := tokenize t; term_vector := [] |}.

(** The state after the loop of [read_files], started in [w]. *)
Definition loaded (texts : list str) (w : world F) : world F :=
  {| heap := heap w ++ map new_document texts;
     self := {| documents := documents (self w) ++ seq (length (heap w)) (length texts);
                N := N (self w);
                df_table := df_table (self w);
                term_vector_words := term_vector_words (self w) |};
     stdout := stdout w |}.

Lemma read_files_loop texts (w : world F) :
  for_each texts (λ text,
    doc ← Document_new;
    set_text doc text;;
    set_terms doc (tokenize text);;
    documents_append doc) w = Ok tt (loaded texts w).
Proof.
  revert w. induction texts as [|t texts IH]; intros w.
  - simpl. unfold loaded; simpl. rewrite !app_nil_r. by destruct w as [? []].
  - cbn [for_each]. rewrite bind_run.
    unfold Document_new at 1. rewrite bind_run. unfold set_text at 1.
    rewrite !bind_run. unfold load at 1, store at 1. cbn [heap self stdout].
    rewrite lookup_total_alloc, insert_alloc. unfold set_terms at 1.
    rewrite !bind_run. unfold load at 1, store at 1. cbn [heap self stdout].
    rewrite lookup_total_alloc, insert_alloc.
    unfold documents_append, get_self, set_self. rewrite bind_run.
    cbn [heap self stdout text terms term_vector Document_init].
    rewrite IH. unfold loaded. cbn [heap self stdout documents N df_table term_vector_words].
    rewrite length_app, <- !app_assoc. cbn [length app map seq].
    by rewrite Nat.add_1_r.
Qed.

(** The state after [read_files], called on a new engine. *)
Definition corpus (texts : list str) : world F :=
  {| heap := map new_document texts;
     self := {| documents := seq 0 (length texts);
                N := Z.of_nat (length texts);
                df_table := [];
                term_vector_words := [] |};
     stdout := [] |}.

Lemma read_files_init texts : read_files texts init_world = Ok tt (corpus texts).
Proof.
  unfold read_files. rewrite bind_run, read_files_loop.
  unfold get_self, set_N, get_self, set_self. rewrite !bind_run.
  unfold loaded, corpus, init_world. cbn. by rewrite length_seq.
Qed.

End Run.

(** ** [create_df_table] *)

Section DfTable.
Context {F : Type}.

(** The terms of the documents of the engine, document by document, in the
    order in which the loops of [create_df_table] visit them. *)
Definition mentions (w : world F) (docs : list loc) : list str :=
  concat (map (λ d, dict_keys (terms (heap w !!! d))) docs).

(** The number of documents that contain the term [t]. *)
Definition document_frequency (w : world F) (t : str) : Z :=
  Z.of_nat (length (filter (λ d, dict_mem t (terms (heap w !!! d)) = true)
                           (documents (self w)))).

Lemma df_inner_loop (ks : list str) (w : world F) :
  for_each ks (λ term,
    e ← get_self;
    set_df_table (dict_count (df_table e) term)) w
  = Ok tt (with_self (with_df_table (fold_left dict_count ks (df_table (self w))) (self w)) w).
Proof.
  revert w. induction ks as [|k ks IH]; intros w.
  - by destruct w as [? [] ?].
  - cbn [for_each]. rewrite bind_run. unfold get_self at 1, set_df_table at 1.
    rewrite !bind_run. unfold get_self at 1, set_self at 1. rewrite IH. done.
Qed.

Lemma df_outer_loop (docs : list loc) (w : world F) :
  for_each docs (λ doc,
    d ← load doc;
    for_each (dict_keys (terms d)) (λ term,
      e ← get_self;
      set_df_table (dict_count (df_table e) term))) w
  = Ok tt (with_self (with_df_table
             (fold_left dict_count (mentions w docs) (df_table (self w))) (self w)) w).
Proof.
  revert w. induction docs as [|d docs IH]; intros w.
  - by destruct w as [? [] ?].
  - cbn [for_each]. rewrite !bind_run. unfold load at 1.
    rewrite df_inner_loop, IH. unfold mentions. cbn [map concat].
    rewrite fold_left_app. done.
Qed.

Lemma create_df_table_run (w : world F) :
  let t := fold_left dict_count (mentions w (documents (self w))) (df_table (self w)) in
  create_df_table w =
  Ok tt (with_self {| documents := documents (self w); N := N (self w);
                      df_table := t; term_vector_words := dict_keys t |} w).
Proof.
  intros t. unfold create_df_table. rewrite bind_run. unfold get_self at 1.
  rewrite bind_run, df_outer_loop. fold t. done.
Qed.

Lemma occurrences_NoDup (t : str) (ks : list str) :
  NoDup ks → occurrences t ks = if decide (t ∈ ks) then 1 else 0.
Proof.
  induction 1 as [|k ks Hk Hks IH]; [done|].
  rewrite occurrences_cons, IH.
  destruct (decide (k = t)) as [->|Hne].
  - rewrite decide_False by done. rewrite decide_True by (by left). done.
  - destruct (decide (t ∈ ks)) as [Hin|Hin].
    + rewrite decide_True by (by right). done.
    + rewrite decide_False; [done|]. intros [?|?]%elem_of_cons; congruence.
Qed.

(** A term is mentioned once for each document that contains it. *)
Lemma occurrences_mentions (w : world F) (docs : list loc) t :
  Forall (λ d, NoDup (dict_keys (terms (heap w !!! d)))) docs →
  occurrences t (mentions w docs) =
  Z.of_nat (length (filter (λ d, dict_mem t (terms (heap w !!! d)) = true) docs)).
Proof.
  induction 1 as [|d docs Hd Hdocs IH]; [done|].
  unfold mentions in *. cbn [map concat].
  rewrite occurrences_app, IH, occurrences_NoDup by done.
  rewrite filter_cons.
  destruct (decide (t ∈ dict_keys (terms (heap w !!! d)))) as [Hin|Hin].
  - apply dict_mem_keys in Hin. rewrite decide_True by done. cbn [length]. lia.
  - rewrite decide_False; [lia|]. by rewrite dict_mem_keys.
Qed.

Lemma corpus_lookup (texts : list str) d t :
  texts !! d = Some t → heap (corpus (F:=F) texts) !!! d = new_document t.
Proof.
  intros Ht. apply list_lookup_total_correct. cbn [corpus heap].
  by rewrite list_lookup_fmap, Ht.
Qed.

Lemma corpus_documents (texts : list str) d :
  d ∈ documents (self (corpus (F:=F) texts)) →
  ∃ t, texts !! d = Some t ∧ heap (corpus (F:=F) texts) !!! d = new_document t.
Proof.
  cbn [corpus self documents]. intros Hd%elem_of_seq.
  destruct (lookup_lt_is_Some_2 texts d) as [t Ht]; [lia|].
  exists t. split; [done | by apply corpus_lookup].
Qed.

(** The table [create_df_table] builds for the corpus of [texts]. *)
Definition df_table_of (texts : list str) : dict :=
  fold_left dict_count (mentions (corpus (F:=F) texts) (seq 0 (length texts))) [].

(** The state after [read_files] and [create_df_table], called on a new
    engine. *)
Definition built (texts : list str) : world F :=
  with_self {| documents := seq 0 (length texts);
               N := Z.of_nat (length texts);
               df_table := df_table_of texts;
               term_vector_words := dict_keys (df_table_of texts) |}
            (corpus texts).

Lemma create_df_table_corpus (texts : list str) :
  (read_files texts ;; create_df_table) init_world = Ok tt (built texts).
Proof. rewrite bind_run, read_files_init. apply create_df_table_run. Qed.

Lemma built_documents (texts : list str) d :
  d ∈ documents (self (built texts)) →
  ∃ t, texts !! d = Some t ∧ heap (built texts) !!! d = new_document t.
Proof. apply corpus_documents. Qed.

Lemma built_vocabulary_NoDup (texts : list str) :
  NoDup (term_vector_words (self (built texts))).
Proof. apply fold_count_NoDup. constructor. Qed.

(** The table maps a term of the vocabulary to the number of documents that
    contain it, which is at least [1] and at most [N]. *)
Lemma built_df_table (texts : list str) t :
  t ∈ term_vector_words (self (built texts)) →
  dict_get t (df_table (self (built texts))) = Some (document_frequency (built texts) t) ∧
  1 ≤ document_frequency (built texts) t ≤ N (self (built texts)).
Proof.
  cbn [built with_self self heap documents N df_table term_vector_words].
  set (w := corpus (F:=F) texts).
  assert (Forall (λ d, NoDup (dict_keys (terms (heap w !!! d)))) (seq 0 (length texts)))
    as Hnd.
  { apply Forall_forall. intros d Hd.
    destruct (corpus_documents texts d Hd) as (t' & _ & Ht). unfold w. rewrite Ht.
    apply tokenize_NoDup. }
  intros Ht%dict_mem_keys%dict_mem_get. destruct Ht as [n Hn].
  revert Hn. unfold df_table_of. rewrite dict_get_fold_count. cbn [dict_get].
  fold w. rewrite occurrences_mentions by done.
  unfold document_frequency. cbn [with_self self heap documents].
  set (n' := length (filter _ _)).
  pose proof (length_filter
    (λ d, dict_mem t (terms (heap w !!! d)) = true) (seq 0 (length texts))) as Hle.
  fold n' in Hle. rewrite length_seq in Hle.
  destruct (Z.of_nat n' =? 0) eqn:E; [done|]. intros _. split; [done | lia].
Qed.

(** C5.  After [create_df_table] has run on a tokenized corpus of [N]
    documents, the vocabulary [term_vector_words] is the list of the keys of
    [df_table] (so a term is in one exactly when it is in the other), and
    for every term [t] of the vocabulary [df_table[t]] is the number of
    documents that contain [t], which lies between [1] and [N]. *)
Theorem create_df_table_invariant (texts : list str) :
  ∃ w : world F,
    (read_files texts ;; create_df_table) init_world = Ok tt w ∧
    N (self w) = Z.of_nat (length texts) ∧
    length (documents (self w)) = length texts ∧
    term_vector_words (self w) = dict_keys (df_table (self w)) ∧
    NoDup (term_vector_words (self w)) ∧
    (∀ t, t ∈ term_vector_words (self w) ↔ dict_mem t (df_table (self w)) = true) ∧
    (∀ t, t ∈ term_vector_words (self w) →
       dict_get t (df_table (self w)) = Some (document_frequency w t) ∧
       1 ≤ document_frequency w t ≤ N (self w)).
Proof.
  exists (built texts). split_and!.
  - apply create_df_table_corpus.
  - done.
  - cbn. by rewrite length_seq.
  - done.
  - apply built_vocabulary_NoDup.
  - intros t. cbn [built with_self self term_vector_words df_table].
    by rewrite dict_mem_keys.
  - apply built_df_table.
Qed.

End DfTable.

(** ** [create_term_vector] *)

Section Vectors.
Context {F : Type} `{PyFloat F}.

(** The TF-IDF weight of [term] for a document with the counts [ts]:
    [(1 + ln c) * ln (N / df_table[term])] if [term] occurs [c] times,
    [0] if it does not occur. *)
Definition tfidf (e : TFIDF_Engine) (ts : dict) (term : str) : F :=
  match dict_get term ts with
  | Some c =>
      match dict_get term (df_table e) with
      | Some df =>
          fmul (fadd (of_int 1) (fln (of_int c))) (fln (fdiv (of_int (N e)) (of_int df)))
      | None => of_int 0
      end
  | None => of_int 0
  end.

(** The document with the term vector [create_term_vector] gives it. *)
Definition vectorized (e : TFIDF_Engine) (doc : Document F) : Document F :=
  with_term_vector (map (tfidf e (terms doc)) (term_vector_words e)) doc.

(** What the vectorizer needs of the index: every word of the vocabulary is
    in [df_table], in at least one and at most [N] documents.
    [create_df_table] establishes it (lemma [built_index_ok]). *)
Definition index_ok (e : TFIDF_Engine) : Prop :=
  Forall (λ t, match dict_get t (df_table e) with
               | Some df => 1 ≤ df ≤ N e
               | None => False
               end) (term_vector_words e).

Lemma dict_get_elem_of k v (d : dict) : dict_get k d = Some v → (k, v) ∈ d.
Proof.
  induction d as [|[k' v'] d IH]; simpl; [done|].
  case_decide; subst.
  - intros [= ->]. by left.
  - intros ?. right. by apply IH.
Qed.

Lemma counts_positive_get (d : dict) k c :
  counts_positive d → dict_get k d = Some c → 0 < c.
Proof.
  unfold counts_positive. rewrite Forall_forall.
  intros Hd Hk%dict_get_elem_of. by apply Hd in Hk.
Qed.

Lemma vectorized_length e doc :
  length (term_vector (vectorized e doc)) = length (term_vector_words e).
Proof. cbn. by rewrite length_map. Qed.

Lemma with_doc_with_doc d doc1 doc2 (w : world F) :
  with_doc d doc2 (with_doc d doc1 w) = with_doc d doc2 w.
Proof. unfold with_doc. cbn. by rewrite list_insert_insert_eq. Qed.

Lemma with_doc_lookup d doc (w : world F) :
  (d < length (heap w))%nat → heap (with_doc d doc w) !!! d = doc.
Proof. intros Hd. cbn. by apply list_lookup_total_insert_eq. Qed.

Lemma with_doc_lookup_ne d d' doc (w : world F) :
  d ≠ d' → heap (with_doc d doc w) !!! d' = heap w !!! d'.
Proof. intros Hd. cbn. by apply list_lookup_total_insert_ne. Qed.

Lemma with_doc_length d doc (w : world F) :
  length (heap (with_doc d doc w)) = length (heap w).
Proof. cbn. apply length_insert. Qed.

Context `{!PyFloatLaws F}.

(** One iteration of the loop of [create_term_vector]. *)
Lemma term_vector_body (d : loc) (term : str) (w : world F) :
  let doc := heap w !!! d in
  counts_positive (terms doc) →
  match dict_get term (df_table (self w)) with
  | Some df => 1 ≤ df ≤ N (self w)
  | None => False
  end →
  (doc ← load d;
   if dict_mem term (terms doc) then
     c ← dict_lookup term (terms doc);
     l ← math_log_int c;
     let tf := fadd (of_int 1) l in
     e ← get_self;
     df ← dict_lookup term (df_table e);
     q ← int_truediv (N e) df;
     idf ← math_log q;
     term_vector_append d (fmul tf idf)
   else
     term_vector_append d (of_int 0)) w
  = Ok tt (with_doc d (with_term_vector
                         (term_vector doc ++ [tfidf (self w) (terms doc) term]) doc) w).
Proof.
  intros doc Hpos Hdf. rewrite bind_run. unfold load at 1. fold doc.
  unfold tfidf, dict_mem.
  destruct (dict_get term (terms doc)) as [c|] eqn:Ec; [|done].
  pose proof (counts_positive_get _ _ _ Hpos Ec) as Hc.
  destruct (dict_get term (df_table (self w))) as [df|] eqn:Edf; [|done].
  rewrite bind_run. unfold dict_lookup at 1. rewrite Ec. rewrite ret_run.
  rewrite bind_run. unfold math_log_int.
  destruct (c <=? 0) eqn:Ec0; [lia|]. rewrite ret_run. cbn zeta.
  rewrite bind_run. unfold get_self at 1.
  rewrite bind_run. unfold dict_lookup. rewrite Edf, ret_run.
  rewrite bind_run. unfold int_truediv.
  destruct (df =? 0) eqn:Edf0; [lia|]. rewrite ret_run.
  rewrite bind_run. unfold math_log.
  rewrite fdiv_pos by lia. rewrite ret_run. done.
Qed.

(** The loop of [create_term_vector] appends one weight for each word. *)
Lemma term_vector_loop (d : loc) (ws : list str) (w : world F) :
  let doc := heap w !!! d in
  (d < length (heap w))%nat →
  counts_positive (terms doc) →
  Forall (λ t, match dict_get t (df_table (self w)) with
               | Some df => 1 ≤ df ≤ N (self w)
               | None => False
               end) ws →
  for_each ws (λ term,
    doc ← load d;
    if dict_mem term (terms doc) then
      c ← dict_lookup term (terms doc);
      l ← math_log_int c;
      let tf := fadd (of_int 1) l in
      e ← get_self;
      df ← dict_lookup term (df_table e);
      q ← int_truediv (N e) df;
      idf ← math_log q;
      term_vector_append d (fmul tf idf)
    else
      term_vector_append d (of_int 0)) w
  = Ok tt (with_doc d (with_term_vector
                         (term_vector doc ++ map (tfidf (self w) (terms doc)) ws) doc) w).
Proof.
  revert w. induction ws as [|t ws IH]; intros w doc Hd Hpos Hws.
  - cbn [for_each map]. rewrite app_nil_r, ret_run. f_equal.
    unfold with_doc, with_term_vector. destruct w as [h e o]; cbn in *.
    f_equal. rewrite list_insert_id'; [done|]. intros _.
    subst doc. cbn. rewrite list_lookup_lookup_total_lt by done. by destruct (h !!! d).
  - apply Forall_cons in Hws as [Ht Hws].
    cbn [for_each]. rewrite bind_run, term_vector_body by done. fold doc.
    rewrite IH.
    + rewrite with_doc_lookup by done. rewrite with_doc_with_doc.
      cbn [with_term_vector terms term_vector text with_doc self map].
      by rewrite <- app_assoc.
    + by rewrite with_doc_length.
    + by rewrite with_doc_lookup.
    + done.
Qed.

Lemma create_term_vector_run (d : loc) (w : world F) :
  (d < length (heap w))%nat →
  counts_positive (terms (heap w !!! d)) →
  index_ok (self w) →
  create_term_vector d w = Ok tt (with_doc d (vectorized (self w) (heap w !!! d)) w).
Proof.
  intros Hd Hpos Hok. unfold create_term_vector.
  rewrite bind_run. unfold set_term_vector at 1. rewrite bind_run.
  unfold load at 1, store at 1. rewrite bind_run. unfold get_self at 1.
  change {| heap := <[d:=?doc]> (heap w); self := self w; stdout := stdout w |}
    with (with_doc d doc w).
  rewrite term_vector_loop.
  - rewrite with_doc_lookup by done. by rewrite with_doc_with_doc.
  - by rewrite with_doc_length.
  - by rewrite with_doc_lookup.
  - done.
Qed.

End Vectors.

(** ** Indexed corpora *)

Section Indexed.
Context {F : Type} `{PyFloat F}.

(** The state of an engine whose index has been built: [N] counts the
    documents, the index is as [create_df_table] leaves it, and the
    documents are objects of the heap whose term counts are positive, as
    [tokenize] makes them.  The state [index_corpus] produces is of this
    kind (lemma [index_corpus_run]), and remains so after any number of
    queries (lemma [after_query_indexed]). *)
Definition indexed (w : world F) : Prop :=
  N (self w) = Z.of_nat (length (documents (self w))) ∧
  index_ok (self w) ∧
  Forall (λ d, (d < length (heap w))%nat ∧ counts_positive (terms (heap w !!! d)))
         (documents (self w)).

Lemma built_index_ok (texts : list str) : index_ok (self (built (F:=F) texts)).
Proof.
  unfold index_ok. apply Forall_forall. intros t Ht.
  destruct (built_df_table texts t Ht) as [-> ?]. done.
Qed.

Lemma built_indexed (texts : list str) : indexed (built (F:=F) texts).
Proof.
  split_and!.
  - cbn. by rewrite length_seq.
  - apply built_index_ok.
  - apply Forall_forall. intros d Hd.
    destruct (built_documents texts d Hd) as (t & Ht & ->).
    split; [|apply tokenize_counts_positive].
    cbn. rewrite length_map. by apply lookup_lt_Some in Ht.
Qed.

Context `{!PyFloatLaws F}.

(** C1.  For every document [d] (an object whose term counts are positive,
    as [tokenize] makes them) and every corpus index as [create_df_table]
    builds it, [create_term_vector(d)] returns and leaves in
    [d.term_vector] one entry per word of the vocabulary: at the position
    [i] of the word [w], [(1 + ln c) * ln (N / df_table[w])] when [w]
    occurs in [d.terms] with count [c], and [0] when it does not occur. *)
Theorem create_term_vector_tfidf (w : world F) (d : loc) :
  index_ok (self w) →
  (d < length (heap w))%nat →
  counts_positive (terms (heap w !!! d)) →
  ∃ w' : world F,
    create_term_vector d w = Ok tt w' ∧
    self w' = self w ∧
    terms (heap w' !!! d) = terms (heap w !!! d) ∧
    length (term_vector (heap w' !!! d)) = length (term_vector_words (self w)) ∧
    ∀ (i : nat) (word : str),
      term_vector_words (self w) !! i = Some word →
      match dict_get word (terms (heap w !!! d)) with
      | Some c =>
          ∃ df, dict_get word (df_table (self w)) = Some df ∧
                term_vector (heap w' !!! d) !! i =
                Some (fmul (fadd (of_int 1) (fln (of_int c)))
                           (fln (fdiv (of_int (N (self w))) (of_int df))))
      | None => term_vector (heap w' !!! d) !! i = Some (of_int 0)
      end.
Proof.
  intros Hok Hd Hpos. eexists. split; [by apply create_term_vector_run|].
  rewrite with_doc_lookup by done. split_and!; try done.
  - apply vectorized_length.
  - intros i word Hi. cbn [vectorized with_term_vector term_vector].
    rewrite list_lookup_fmap, Hi. cbn. unfold tfidf.
    destruct (dict_get word (terms (heap w !!! d))) as [c|]; [|done].
    unfold index_ok in Hok. rewrite Forall_forall in Hok.
    specialize (Hok word (list_elem_of_lookup_2 _ _ _ Hi)).
    destruct (dict_get word (df_table (self w))) as [df|]; [|done].
    by exists df.
Qed.

(** The loop of [create_term_vectors] vectorizes the documents it visits
    and leaves the other objects alone. *)
Lemma term_vectors_loop (e : TFIDF_Engine) (ds : list loc) (w : world F) :
  self w = e →
  index_ok e →
  Forall (λ d, (d < length (heap w))%nat ∧ counts_positive (terms (heap w !!! d))) ds →
  ∃ w' : world F,
    for_each ds create_term_vector w = Ok tt w' ∧
    self w' = e ∧
    stdout w' = stdout w ∧
    length (heap w') = length (heap w) ∧
    ∀ d, heap w' !!! d =
         if decide (d ∈ ds) then vectorized e (heap w !!! d) else heap w !!! d.
Proof.
  intros <- Hok. revert w Hok. induction ds as [|d0 ds IH]; intros w Hok Hds.
  - by exists w.
  - apply Forall_cons in Hds as [[Hd0 Hpos0] Hds].
    set (w1 := with_doc d0 (vectorized (self w) (heap w !!! d0)) w).
    assert (∀ d, heap w1 !!! d =
                 if decide (d = d0) then vectorized (self w) (heap w !!! d0)
                 else heap w !!! d) as Hw1.
    { intros d. case_decide; subst.
      - by apply with_doc_lookup.
      - by apply with_doc_lookup_ne. }
    destruct (IH w1) as (w' & Hrun & Hself & Hout & Hlen & Hheap).
    { done. }
    { eapply Forall_impl; [exact Hds|]. intros d [Hd Hpos]. split.
      - unfold w1. by rewrite with_doc_length.
      - rewrite Hw1. by case_decide; subst. }
    exists w'. split_and!; try done.
    + cbn [for_each]. rewrite bind_run, create_term_vector_run by done. exact Hrun.
    + rewrite Hlen. apply with_doc_length.
    + intros d. rewrite Hheap, Hw1. cbn [self w1 with_doc].
      destruct (decide (d = d0)) as [->|Hne].
      * rewrite (decide_True (P := d0 ∈ d0 :: ds)) by (by left).
        by case_decide.
      * destruct (decide (d ∈ ds)) as [Hin|Hin].
        -- by rewrite decide_True by (by right).
        -- rewrite decide_False; [done|]. intros [?|?]%elem_of_cons; done.
Qed.

Lemma create_term_vectors_run (w : world F) :
  indexed w →
  ∃ w' : world F,
    create_term_vectors w = Ok tt w' ∧
    self w' = self w ∧
    stdout w' = stdout w ∧
    length (heap w') = length (heap w) ∧
    ∀ d, heap w' !!! d =
         if decide (d ∈ documents (self w)) then vectorized (self w) (heap w !!! d)
         else heap w !!! d.
Proof.
  intros (HN & Hok & Hdocs). unfold create_term_vectors.
  rewrite bind_run. unfold get_self at 1. by apply term_vectors_loop.
Qed.

Lemma create_term_vectors_indexed (w w' : world F) :
  indexed w → create_term_vectors w = Ok tt w' → indexed w'.
Proof.
  intros Hw Hrun. destruct (create_term_vectors_run w Hw) as (w2 & Hrun2 & Hs & _ & Hl & Hh).
  rewrite Hrun in Hrun2. injection Hrun2 as <-.
  destruct Hw as (HN & Hok & Hdocs). unfold indexed. rewrite Hs. split_and!; try done.
  eapply Forall_impl; [exact Hdocs|]. intros d [Hd Hpos]. split; [by rewrite Hl|].
  rewrite Hh. by case_decide.
Qed.

(** C6.  After [create_term_vectors] has run on an indexed corpus, the term
    vector of every document has as many entries as the vocabulary has
    words, so all have the same length, and the entry at position [i] is
    the weight of the word at position [i] of the vocabulary. *)
Theorem create_term_vectors_length (w : world F) :
  indexed w →
  ∃ w' : world F,
    create_term_vectors w = Ok tt w' ∧
    self w' = self w ∧
    Forall (λ d,
      length (term_vector (heap w' !!! d)) = length (term_vector_words (self w')) ∧
      ∀ (i : nat) (word : str),
        term_vector_words (self w') !! i = Some word →
        term_vector (heap w' !!! d) !! i =
        Some (tfidf (self w') (terms (heap w' !!! d)) word))
      (documents (self w')).
Proof.
  intros Hw. destruct (create_term_vectors_run w Hw) as (w' & Hrun & Hs & _ & _ & Hh).
  exists w'. split_and!; try done. rewrite Hs.
  apply Forall_forall. intros d Hd. rewrite Hh, decide_True by done.
  split; [apply vectorized_length|].
  intros i word Hi. cbn. by rewrite list_lookup_fmap, Hi.
Qed.

Lemma index_corpus_run (texts : list str) :
  ∃ w : world F,
    index_corpus texts init_world = Ok tt w ∧ indexed w ∧
    length (documents (self w)) = length texts.
Proof.
  destruct (create_term_vectors_run (built texts) (built_indexed texts))
    as (w & Hrun & Hs & Hrest).
  exists w. split_and!.
  - unfold index_corpus. rewrite bind_run, read_files_init.
    pose proof (create_df_table_corpus (F:=F) texts) as Hb.
    rewrite bind_run, read_files_init in Hb. rewrite bind_run, Hb. exact Hrun.
  - eapply create_term_vectors_indexed; [apply built_indexed | exact Hrun].
  - rewrite Hs. cbn. by rewrite length_seq.
Qed.

End Indexed.

(** ** [calculate_cosine_sim] *)

Section Cosine.
Context {F : Type} `{PyFloat F}.

(** The dot product of two vectors ([zip] stops at the shorter one). *)
Definition dot_product (v1 v2 : list F) : F := py_sum (zip_with fmul v1 v2).

(** The Euclidean magnitude of a vector. *)
Definition magnitude (v : list F) : F := fsqrt (py_sum (map (λ a, fmul a a) v)).

(** The cosine similarity of two vectors, [0] if one of them has magnitude
    zero. *)
Definition cosine (v1 v2 : list F) : F :=
  if feqb (magnitude v1) (of_int 0) || feqb (magnitude v2) (of_int 0) then of_int 0
  else fdiv (dot_product v1 v2) (fmul (magnitude v1) (magnitude v2)).

Context `{!PyFloatLaws F}.

Lemma fltb_irrefl (x : F) : fltb x x = false.
Proof.
  destruct (fltb x x) eqn:E; [|done]. pose proof (fltb_asym x x E). congruence.
Qed.

Lemma fold_fadd_nonneg (l : list F) (acc : F) :
  fltb acc (of_int 0) = false →
  Forall (λ x, fltb x (of_int 0) = false) l →
  fltb (fold_left fadd l acc) (of_int 0) = false.
Proof.
  revert acc. induction l as [|x l IH]; intros acc Hacc Hl; simpl; [done|].
  apply Forall_cons in Hl as [Hx Hl]. apply IH; [|done]. by apply fadd_nonneg.
Qed.

(** A sum of squares is not negative, so [math.sqrt] accepts it. *)
Lemma sum_squares_nonneg (v : list F) :
  fltb (py_sum (map (λ a, fmul a a) v)) (of_int 0) = false.
Proof.
  apply fold_fadd_nonneg; [apply fltb_irrefl|].
  apply Forall_forall. intros x (a & -> & _)%list_elem_of_fmap. apply fmul_square.
Qed.

Lemma math_sqrt_sum_squares (v : list F) (w : world F) :
  math_sqrt (py_sum (map (λ a, fmul a a) v)) w = Ok (magnitude v) w.
Proof. unfold math_sqrt. by rewrite sum_squares_nonneg. Qed.

Lemma calculate_cosine_sim_run (d1 d2 : loc) (w : world F) :
  calculate_cosine_sim d1 d2 w =
  Ok (cosine (term_vector (heap w !!! d1)) (term_vector (heap w !!! d2))) w.
Proof.
  unfold calculate_cosine_sim. rewrite bind_run. unfold load at 1.
  rewrite bind_run. unfold load at 1. cbn zeta.
  rewrite bind_run, math_sqrt_sum_squares, bind_run, math_sqrt_sum_squares.
  unfold cosine.
  destruct (feqb (magnitude _) (of_int 0)) eqn:E1; [done|].
  destruct (feqb (magnitude (term_vector (heap w !!! d2))) (of_int 0)) eqn:E2; [done|].
  cbn [orb]. unfold truediv. by rewrite fmul_nonzero.
Qed.

Lemma sum_squares_zero (n : nat) :
  py_sum (map (λ a : F, fmul a a) (replicate n (of_int 0))) = of_int 0.
Proof.
  unfold py_sum. induction n as [|n IH]; [done|].
  cbn [replicate map fold_left]. by rewrite fmul_0_0, fadd_0_0.
Qed.

Lemma magnitude_zero (n : nat) : feqb (magnitude (replicate n (of_int 0))) (of_int 0) = true.
Proof. unfold magnitude. rewrite sum_squares_zero. apply fsqrt_0. Qed.

Lemma cosine_zero_r (v : list F) (n : nat) : cosine v (replicate n (of_int 0)) = of_int 0.
Proof. unfold cosine. by rewrite magnitude_zero, orb_true_r. Qed.

Lemma cosine_zero_l (v : list F) (n : nat) : cosine (replicate n (of_int 0)) v = of_int 0.
Proof. unfold cosine. by rewrite magnitude_zero. Qed.

(** C4.  For every pair of term vectors (of equal length or not),
    [calculate_cosine_sim] returns, without raising, the dot product
    divided by the product of the Euclidean magnitudes, except that it
    returns [0] when one of the magnitudes is zero; in particular the
    similarity of any vector with a zero vector is [0]. *)
Theorem calculate_cosine_sim_spec (d1 d2 : loc) (w : world F) :
  let v1 := term_vector (heap w !!! d1) in
  let v2 := term_vector (heap w !!! d2) in
  calculate_cosine_sim d1 d2 w =
    Ok (if feqb (magnitude v1) (of_int 0) || feqb (magnitude v2) (of_int 0)
        then of_int 0
        else fdiv (dot_product v1 v2) (fmul (magnitude v1) (magnitude v2))) w ∧
  (∀ n, v2 = replicate n (of_int 0) → calculate_cosine_sim d1 d2 w = Ok (of_int 0) w) ∧
  (∀ n, v1 = replicate n (of_int 0) → calculate_cosine_sim d1 d2 w = Ok (of_int 0) w).
Proof.
  intros v1 v2. rewrite calculate_cosine_sim_run. fold v1 v2. split_and!.
  - done.
  - intros n ->. by rewrite cosine_zero_r.
  - intros n ->. by rewrite cosine_zero_l.
Qed.

End Cosine.

(** ** Sorting *)

Section Sorting.
Context {F : Type} `{PyFloat F}.

Lemma StronglySorted_lookup {A} (R : relation A) (l : list A) (i j : nat) a b :
  StronglySorted R l → (i < j)%nat → l !! i = Some a → l !! j = Some b → R a b.
Proof.
  intros Hl. revert i j. induction Hl as [|x l Hl IH Hx]; intros i j Hij Hi Hj; [done|].
  destruct j as [|j]; [lia|]. destruct i as [|i]; simpl in *.
  - injection Hi as ->. rewrite Forall_forall in Hx.
    apply Hx. by eapply list_elem_of_lookup_2.
  - apply (IH i j); [lia | done..].
Qed.

Lemma lookup_StronglySorted {A} (R : relation A) (l : list A) :
  (∀ (i j : nat) a b, (i < j)%nat → l !! i = Some a → l !! j = Some b → R a b) →
  StronglySorted R l.
Proof.
  induction l as [|x l IH]; intros Hl; constructor.
  - apply IH. intros i j a b Hij Hi Hj. apply (Hl (S i) (S j)); [lia | done..].
  - apply Forall_forall. intros y [k Hk]%list_elem_of_lookup_1.
    apply (Hl 0%nat (S k)); [lia | done..].
Qed.

Lemma StronglySorted_reverse {A} (R : relation A) (l : list A) :
  StronglySorted R l → StronglySorted (flip R) (reverse l).
Proof.
  induction 1 as [|x l Hl IH Hx]; [constructor|].
  rewrite reverse_cons. apply StronglySorted_app_2; [|done|repeat constructor].
  intros y x' Hy ->%list_elem_of_singleton. unfold flip.
  rewrite Forall_forall in Hx. apply Hx. by apply elem_of_reverse.
Qed.

Lemma sort_insert_perm (x : F * Z) (l : list (F * Z)) : sort_insert x l ≡ₚ x :: l.
Proof.
  induction l as [|y l IH]; simpl; [done|].
  destruct (fltb x.1 y.1); [done|]. rewrite IH. apply Permutation_swap.
Qed.

Lemma fold_insert_perm (l acc : list (F * Z)) :
  fold_left (λ acc x, sort_insert x acc) l acc ≡ₚ l ++ acc.
Proof.
  revert acc. induction l as [|x l IH]; intros acc; simpl; [done|].
  rewrite IH, sort_insert_perm. by rewrite Permutation_middle.
Qed.

Lemma sort_by_key_perm (l : list (F * Z)) : sort_by_key l ≡ₚ l.
Proof. unfold sort_by_key. by rewrite fold_insert_perm, app_nil_r. Qed.

Lemma sort_by_key_reverse_perm (l : list (F * Z)) : sort_by_key_reverse l ≡ₚ l.
Proof.
  unfold sort_by_key_reverse. by rewrite reverse_Permutation, sort_by_key_perm,
    reverse_Permutation.
Qed.

(** The order of the ascending stable sort of a list whose second
    components decrease: keys do not decrease, and among equivalent keys the
    second components still decrease. *)
Definition stable_ascending (a b : F * Z) : Prop :=
  fltb b.1 a.1 = false ∧ (fltb a.1 b.1 = false → b.2 < a.2).

Context `{!PyFloatLaws F}.

Lemma sort_insert_sorted (x : F * Z) (acc : list (F * Z)) :
  StronglySorted stable_ascending acc →
  Forall (λ y, x.2 < y.2) acc →
  StronglySorted stable_ascending (sort_insert x acc).
Proof.
  induction 1 as [|y acc Hacc IH Hy]; intros Hx; simpl; [repeat constructor|].
  apply Forall_cons in Hx as [Hxy Hx].
  destruct (fltb x.1 y.1) eqn:E.
  - constructor; [by constructor|]. constructor.
    + split; [by apply fltb_asym | congruence].
    + rewrite Forall_forall in Hy |- *. intros z Hz. destruct (Hy z Hz) as [Hzy _].
      destruct (fltb_negtrans _ _ z.1 E) as [Hxz|Hzy']; [|congruence].
      split; [by apply fltb_asym | congruence].
  - constructor; [by apply IH|].
    rewrite sort_insert_perm. constructor; [|done]. by split.
Qed.

Lemma fold_insert_sorted (l acc : list (F * Z)) :
  StronglySorted stable_ascending acc →
  StronglySorted (λ a b, b.2 < a.2) l →
  Forall (λ x, Forall (λ y, x.2 < y.2) acc) l →
  StronglySorted stable_ascending (fold_left (λ acc x, sort_insert x acc) l acc).
Proof.
  revert acc. induction l as [|x l IH]; intros acc Hacc Hl Hlacc; simpl; [done|].
  apply StronglySorted_inv in Hl as [Hl Hx].
  apply Forall_cons in Hlacc as [Hxacc Hlacc].
  apply IH; [by apply sort_insert_sorted | done |].
  rewrite Forall_forall in Hx, Hlacc |- *. intros z Hz.
  rewrite sort_insert_perm. constructor; [by apply Hx | by apply Hlacc].
Qed.

(** The order of the outcome of [sort(key=..., reverse=True)] on a list
    whose second components increase: keys do not increase, and among
    equivalent keys the second components still increase. *)
Lemma sort_by_key_reverse_sorted (l : list (F * Z)) :
  StronglySorted (λ a b, a.2 < b.2) l →
  StronglySorted (λ a b, fltb a.1 b.1 = false ∧ (fltb b.1 a.1 = false → a.2 < b.2))
                 (sort_by_key_reverse l).
Proof.
  intros Hl. unfold sort_by_key_reverse.
  apply (StronglySorted_reverse stable_ascending).
  apply fold_insert_sorted; [constructor | | ].
  - by apply (StronglySorted_reverse (λ a b : F * Z, a.2 < b.2)).
  - apply Forall_forall. intros; constructor.
Qed.

End Sorting.

(** ** [get_results] *)

Section Ranking.
Context {F : Type} `{PyFloat F}.

(** The object [get_results] creates for a query. *)
Definition query_document (e : TFIDF_Engine) (query : str) : Document F :=
  vectorized e {| text := query; terms := tokenize query; term_vector := [] |}.

(** The list [results] before it is sorted: for each document, in order, its
    similarity with the query vector [q] and its index. *)
Definition scores (q : list F) (w : world F) (docs : list loc) : list (F * Z) :=
  imap (λ i d, (cosine q (term_vector (heap w !!! d)), Z.of_nat i)) docs.

(** The state after [get_results]: one more object, the query document. *)
Definition after_query (query : str) (w : world F) : world F :=
  {| heap := heap w ++ [query_document (self w) query];
     self := self w; stdout := stdout w |}.

Lemma scores_indices (q : list F) (w : world F) (docs : list loc) :
  (scores q w docs).*2 = range (length docs).
Proof.
  unfold scores, range. rewrite fmap_imap. apply (imap_seq_0 docs Z.of_nat).
Qed.

Lemma scores_lookup (q : list F) (w : world F) (docs : list loc) (i : nat) a :
  scores q w docs !! i = Some a →
  ∃ d, docs !! i = Some d ∧ a = (cosine q (term_vector (heap w !!! d)), Z.of_nat i).
Proof.
  unfold scores. rewrite list_lookup_imap.
  destruct (docs !! i) as [d|]; [|done]. intros [= <-]. by exists d.
Qed.

Lemma scores_sorted (q : list F) (w : world F) (docs : list loc) :
  StronglySorted (λ a b : F * Z, a.2 < b.2) (scores q w docs).
Proof.
  apply lookup_StronglySorted. intros i j a b Hij Hi Hj.
  apply scores_lookup in Hi as (? & _ & ->). apply scores_lookup in Hj as (? & _ & ->).
  cbn. lia.
Qed.

Lemma after_query_lookup (query : str) (w : world F) (d : loc) :
  (d < length (heap w))%nat → heap (after_query query w) !!! d = heap w !!! d.
Proof. intros Hd. cbn. by apply lookup_total_app_l. Qed.

Lemma after_query_lookup_new (query : str) (w : world F) :
  heap (after_query query w) !!! length (heap w) = query_document (self w) query.
Proof. cbn. apply lookup_total_alloc. Qed.

Context `{!PyFloatLaws F}.

(** The loop of [get_results]. *)
Lemma results_loop (qd : loc) (l : list (Z * loc)) (acc : list (F * Z)) (w : world F) :
  for_fold l (λ results '(idx, doc),
    similarity ← calculate_cosine_sim qd doc;
    mret (results ++ [(similarity, idx)])) acc w
  = Ok (acc ++ map (λ '(idx, doc),
          (cosine (term_vector (heap w !!! qd)) (term_vector (heap w !!! doc)), idx)) l) w.
Proof.
  revert acc. induction l as [|[idx doc] l IH]; intros acc.
  - cbn. by rewrite app_nil_r.
  - cbn [for_fold map]. rewrite bind_run, bind_run, calculate_cosine_sim_run, ret_run.
    rewrite IH. by rewrite <- app_assoc.
Qed.

Lemma get_results_run (query : str) (w : world F) :
  indexed w →
  get_results query w =
  Ok (sort_by_key_reverse
        (scores (term_vector (query_document (self w) query)) w (documents (self w))))
     (after_query query w).
Proof.
  intros (HN & Hok & Hdocs). unfold get_results.
  rewrite bind_run. unfold Document_new at 1.
  rewrite bind_run. unfold set_text at 1. rewrite bind_run.
  unfold load at 1, store at 1. cbn [heap self stdout].
  rewrite lookup_total_alloc, insert_alloc.
  rewrite bind_run. unfold set_terms at 1. rewrite bind_run.
  unfold load at 1, store at 1. cbn [heap self stdout].
  rewrite lookup_total_alloc, insert_alloc.
  cbn [text terms term_vector Document_init].
  rewrite bind_run, create_term_vector_run; cbn [heap self stdout].
  - unfold with_doc. cbn [heap self stdout].
    rewrite lookup_total_alloc, insert_alloc.
    rewrite bind_run. unfold get_self at 1. cbn [self].
    rewrite bind_run, results_loop, ret_run.
    fold (query_document (self w) query). fold (after_query query w).
    rewrite after_query_lookup_new. do 2 f_equal.
    unfold enumerate, scores. rewrite fmap_imap. apply imap_ext.
    intros i d Hd. unfold compose. cbv beta iota. rewrite after_query_lookup; [done|].
    rewrite Forall_forall in Hdocs. apply Hdocs. by eapply list_elem_of_lookup_2.
  - rewrite length_app. cbn. lia.
  - rewrite lookup_total_alloc. apply tokenize_counts_positive.
  - done.
Qed.

Lemma after_query_indexed (query : str) (w : world F) :
  indexed w → indexed (after_query query w).
Proof.
  intros (HN & Hok & Hdocs). split_and!; [done..|].
  eapply Forall_impl; [exact Hdocs|]. intros d [Hd Hpos]. split.
  - cbn. rewrite length_app. lia.
  - by rewrite after_query_lookup.
Qed.

(** C3.  For every query and every indexed corpus of [N] documents,
    [get_results] returns a list of [N] pairs, one per document: the second
    components are a permutation of the indices [0 .. N-1]; the pair with
    the index [idx] holds the cosine similarity of the query vector with the
    term vector that the document [documents[idx]] had before the call,
    where the query vector is the TF-IDF vector of the tokens of the query,
    stored in the new object that holds the query as its text (it is what
    [calculate_cosine_sim] returns for the two objects); and the
    similarities do not increase along the list (an earlier one is never
    less than a later one). *)
Theorem get_results_ranked (query : str) (w : world F) :
  indexed w →
  ∃ (res : list (F * Z)) (w' : world F),
    get_results query w = Ok res w' ∧
    Z.of_nat (length res) = N (self w) ∧
    res.*2 ≡ₚ range (length (documents (self w))) ∧
    heap w' !!! length (heap w) =
      {| text := query; terms := tokenize query;
         term_vector := map (tfidf (self w) (tokenize query)) (term_vector_words (self w)) |} ∧
    (∀ s idx, (s, idx) ∈ res →
       ∃ d, 0 ≤ idx ∧ documents (self w) !! Z.to_nat idx = Some d ∧
            s = cosine (map (tfidf (self w) (tokenize query)) (term_vector_words (self w)))
                       (term_vector (heap w !!! d)) ∧
            heap w' !!! d = heap w !!! d ∧
            calculate_cosine_sim (length (heap w)) d w' = Ok s w') ∧
    (∀ (i j : nat) a b,
       (i < j)%nat → res !! i = Some a → res !! j = Some b → fltb a.1 b.1 = false).
Proof.
  intros Hw. do 2 eexists. split; [by apply get_results_run|].
  set (sc := scores _ _ _).
  pose proof (sort_by_key_reverse_perm sc) as Hperm.
  destruct Hw as (HN & Hok & Hdocs). split_and!.
  - rewrite Hperm, HN. unfold sc, scores. by rewrite length_imap.
  - rewrite Hperm. unfold sc. by rewrite scores_indices.
  - by rewrite after_query_lookup_new.
  - intros s idx Hin. rewrite Hperm in Hin.
    apply list_elem_of_lookup_1 in Hin as [i Hi].
    apply scores_lookup in Hi as (d & Hd & [= -> ->]).
    assert (d < length (heap w))%nat as Hlt.
    { rewrite Forall_forall in Hdocs. apply Hdocs. by eapply list_elem_of_lookup_2. }
    exists d. rewrite Nat2Z.id. split_and!; [lia | done | done | |].
    + by apply after_query_lookup.
    + by rewrite calculate_cosine_sim_run, after_query_lookup_new, after_query_lookup.
  - intros i j a b Hij Hi Hj.
    pose proof (sort_by_key_reverse_sorted sc (scores_sorted _ _ _)) as Hs.
    by destruct (StronglySorted_lookup _ _ _ _ _ _ Hs Hij Hi Hj).
Qed.

(** C8.  For every query, [get_results] does not mutate the index of an
    indexed corpus: the engine ([N], [df_table], [term_vector_words] and the
    list [documents]) is the same after the call as before it, and so is
    every object that existed before the call, in particular every stored
    document with its text, terms and term vector; the call only adds an
    object, the query document. *)
Theorem get_results_frame (query : str) (w : world F) :
  indexed w →
  ∃ (res : list (F * Z)) (w' : world F),
    get_results query w = Ok res w' ∧
    self w' = self w ∧
    (N (self w') = N (self w) ∧ df_table (self w') = df_table (self w) ∧
     term_vector_words (self w') = term_vector_words (self w) ∧
     documents (self w') = documents (self w)) ∧
    (∀ d, (d < length (heap w))%nat → heap w' !!! d = heap w !!! d) ∧
    Forall (λ d, text (heap w' !!! d) = text (heap w !!! d) ∧
                 terms (heap w' !!! d) = terms (heap w !!! d) ∧
                 term_vector (heap w' !!! d) = term_vector (heap w !!! d))
           (documents (self w')) ∧
    length (heap w') = S (length (heap w)) ∧
    stdout w' = stdout w ∧
    indexed w'.
Proof.
  intros Hw. do 2 eexists. split; [by apply get_results_run|].
  split_and!; try done.
  - intros d Hd. by apply after_query_lookup.
  - destruct Hw as (_ & _ & Hdocs). cbn [after_query self].
    eapply Forall_impl; [exact Hdocs|]. intros d [Hd _].
    by rewrite after_query_lookup.
  - cbn. rewrite length_app. cbn. lia.
  - by apply after_query_indexed.
Qed.

(** C10.  For every query, ties in [get_results] are broken by document
    index: of two pairs of the returned list, the earlier one has the
    smaller document index whenever the later one's similarity is not less
    than its own, which, the list being sorted, is the case exactly when the
    two similarities are equivalent, and in particular when they are
    equal. *)
Theorem get_results_ties_by_index (query : str) (w : world F) :
  indexed w →
  ∃ (res : list (F * Z)) (w' : world F),
    get_results query w = Ok res w' ∧
    ∀ (i j : nat) a b,
      (i < j)%nat → res !! i = Some a → res !! j = Some b →
      (fltb b.1 a.1 = false → a.2 < b.2) ∧ (a.1 = b.1 → a.2 < b.2).
Proof.
  intros Hw. do 2 eexists. split; [by apply get_results_run|].
  intros i j a b Hij Hi Hj.
  pose proof (sort_by_key_reverse_sorted _ (scores_sorted
    (term_vector (query_document (self w) query)) w (documents (self w)))) as Hs.
  destruct (StronglySorted_lookup _ _ _ _ _ _ Hs Hij Hi Hj) as [_ Htie].
  split; [done|]. intros Heq. apply Htie. rewrite Heq. apply fltb_irrefl.
Qed.

End Ranking.

(** ** The empty corpus *)

Section EmptyCorpus.
Context {F : Type} `{PyFloat F}.

(** C7.  For an empty corpus ([N = 0], no documents) nothing divides by
    zero: [create_df_table] leaves an empty [df_table] and an empty
    vocabulary, [create_term_vectors] has nothing to do, and for every query
    [get_results] returns the empty list without raising. *)
Theorem empty_corpus_no_error :
  ∃ w : world F,
    (read_files [] ;; create_df_table) init_world = Ok tt w ∧
    N (self w) = 0 ∧
    documents (self w) = [] ∧
    df_table (self w) = [] ∧
    term_vector_words (self w) = [] ∧
    create_term_vectors w = Ok tt w ∧
    ∀ query : str, ∃ w' : world F, get_results query w = Ok [] w'.
Proof.
  exists (built []). split_and!; try done.
  intros query. by eexists.
Qed.

End EmptyCorpus.

(** ** [query_loop] *)

Section QueryLoop.
Context {F : Type} `{PyFloat F}.

Lemma list_index_cases {A} (l : list A) (i : Z) (w : world F) :
  (∃ x, list_index l i w = Ok x w) ∨ list_index l i w = Raise IndexError.
Proof.
  unfold list_index. destruct (_ <? 0); [by right|].
  destruct (l !! _) as [x|]; [left; by exists x | by right].
Qed.

Lemma list_index_nat {A} (l : list A) (k : nat) (w : world F) :
  list_index l (Z.of_nat k) w =
  match l !! k with Some x => Ok x w | None => Raise IndexError end.
Proof.
  unfold list_index. destruct (Z.ltb_spec (Z.of_nat k) 0) as [?|_]; [lia|].
  destruct (Z.ltb_spec (Z.of_nat k) 0) as [?|_]; [lia|].
  rewrite Nat2Z.id. by destruct (l !! k).
Qed.

(** The loop that prints the five best results indexes [sim_scores] at
    [0 .. 4]: with fewer than five results it raises [IndexError]. *)
Lemma display_loop_IndexError (sim_scores : list (F * Z)) (k m : nat) (w : world F) :
  (k ≤ length sim_scores < k + m)%nat →
  for_each (map Z.of_nat (seq k m)) (λ i,
    r ← list_index sim_scores i;
    print (ResultScore i r.1);;
    r' ← list_index sim_scores i;
    e ← get_self;
    doc ← list_index (documents e) r'.2;
    d ← load doc;
    print (ResultDocument (Document_str d))) w = Raise IndexError.
Proof.
  revert k w. induction m as [|m IH]; intros k w Hk; [lia|].
  cbn [seq map for_each]. rewrite bind_run, bind_run, list_index_nat.
  destruct (sim_scores !! k) as [r|] eqn:Er; [|done].
  apply lookup_lt_Some in Er as Hlt.
  rewrite bind_run. unfold print at 1. rewrite bind_run, list_index_nat, Er.
  rewrite bind_run. unfold get_self at 1. rewrite bind_run. cbn [self].
  match goal with
  | |- context [list_index ?l ?i ?w0] => destruct (list_index_cases l i w0) as [[doc ->]| ->]
  end; [|done].
  rewrite bind_run. unfold load at 1, print at 1.
  apply IH. lia.
Qed.

Lemma print_indexed (o : output F) (w w' : world F) :
  indexed w → print o w = Ok tt w' → indexed w' ∧ self w' = self w.
Proof. intros Hw [= <-]. done. Qed.

Context `{!PyFloatLaws F}.

(** C9 (as the code behaves).  With an indexed corpus of fewer than five
    documents, the first query makes [query_loop] raise [IndexError]: the
    loop over [range(5)] indexes the list of results past its end, and
    [query_loop] only catches [KeyboardInterrupt] and [EOFError]. *)
Theorem query_loop_short_corpus (query : str) (inputs : list str) (w : world F) :
  indexed w →
  (length (documents (self w)) < 5)%nat →
  query_loop (query :: inputs) w = Raise IndexError.
Proof.
  intros Hw Hlen. unfold query_loop. rewrite bind_run.
  destruct (print_indexed Welcome w _ Hw eq_refl) as [Hw1 Hs1].
  unfold print at 1. rewrite bind_run. cbn [query_loop_body]. rewrite bind_run.
  unfold print at 1. rewrite bind_run.
  match goal with
  | |- context [get_results query ?w0] =>
      assert (indexed w0) as Hw2 by done;
      assert (self w0 = self w) as Hs2 by done;
      rewrite (get_results_run query w0 Hw2), Hs2
  end.
  rewrite bind_run. unfold print at 1. rewrite bind_run.
  change (range 5) with (map Z.of_nat (seq 0 5)).
  rewrite display_loop_IndexError; [done|].
  rewrite sort_by_key_reverse_perm. unfold scores. rewrite length_imap. lia.
Qed.

End QueryLoop.

(** ** The laws hold for the real numbers *)

#[global] Instance PyFloatLaws_R : PyFloatLaws R.
Proof.
  split; cbn.
  - intros x y Hxy%bool_decide_eq_true. apply bool_decide_eq_false. lra.
  - intros x y z Hxy%bool_decide_eq_true.
    destruct (Rlt_dec x z); [left | right]; apply bool_decide_eq_true; lra.
  - intros n d Hn%IZR_lt Hd%IZR_lt. unfold fleb. cbn.
    assert (0 < IZR n / IZR d)%R by (by apply Rdiv_lt_0_compat).
    apply orb_false_iff. split; apply bool_decide_eq_false; lra.
  - intros a. apply bool_decide_eq_false. nra.
  - intros x y Hx%bool_decide_eq_false Hy%bool_decide_eq_false.
    apply bool_decide_eq_false. lra.
  - intros x y Hx%bool_decide_eq_false Hy%bool_decide_eq_false.
    apply bool_decide_eq_false. by apply Rmult_integral_contrapositive.
  - lra.
  - lra.
  - apply bool_decide_eq_true. apply sqrt_0.
Qed.

(** ** The theorems on a small corpus, over the real numbers *)

Definition example_texts : list str :=
  [of_string "star wars"; of_string "star trek"; of_string "the wars"].

Example tokenize_the : tokenize (of_string "the the THE") = [(of_string "the", 3)].
Proof. reflexivity. Qed.

Example tokenize_dont_stop :
  tokenize (of_string "don't-stop") = [(of_string "don't-stop", 1)].
Proof. reflexivity. Qed.

Example example_df_table :
  df_table (self (built (F:=R) example_texts)) =
  [(of_string "star", 2); (of_string "wars", 2); (of_string "trek", 1); (of_string "the", 1)].
Proof. reflexivity. Qed.

(** In the example corpus "star" occurs once in the first document and in
    two of the three documents: its weight there is [(1 + ln 1) * ln (3/2)]. *)
Lemma create_term_vector_tfidf_witness :
  let w := built (F:=R) example_texts in
  index_ok (self w) ∧
  (0 < length (heap w))%nat ∧
  counts_positive (terms (heap w !!! 0%nat)) ∧
  ∃ w' : world R,
    create_term_vector 0 w = Ok tt w' ∧
    length (term_vector (heap w' !!! 0%nat)) = 4%nat ∧
    term_vector (heap w' !!! 0%nat) !! 0%nat = Some ((1 + ln 1) * ln (3 / 2))%R ∧
    term_vector (heap w' !!! 0%nat) !! 2%nat = Some 0%R.
Proof.
  assert (index_ok (self (built (F:=R) example_texts))) as H1
    by (vm_compute; repeat constructor; done).
  assert (0 < length (heap (built (F:=R) example_texts)))%nat as H2
    by (vm_compute; lia).
  assert (counts_positive (terms (heap (built (F:=R) example_texts) !!! 0%nat))) as H3
    by (vm_compute; repeat constructor).
  split_and!; try done.
  destruct (create_term_vector_tfidf _ 0%nat H1 H2 H3) as (w' & Hrun & _ & _ & Hlen & Hv).
  exists w'. split_and!; [done | exact Hlen | |].
  - destruct (Hv 0%nat (of_string "star") eq_refl) as (df & [= <-] & Hdf). exact Hdf.
  - exact (Hv 2%nat (of_string "trek") eq_refl).
Defined.

(** The similarity of a vector with the zero vector. *)
Lemma calculate_cosine_sim_spec_witness :
  let w : world R :=
    {| heap := [ {| text := []; terms := []; term_vector := [3; 4]%R |};
                 {| text := []; terms := []; term_vector := [0; 0]%R |} ];
       self := TFIDF_Engine_init; stdout := [] |} in
  calculate_cosine_sim 0 1 w = Ok 0%R w.
Proof.
  intros w. exact (proj1 (proj2 (calculate_cosine_sim_spec 0%nat 1%nat w)) 2%nat eq_refl).
Defined.

Lemma create_term_vectors_length_witness :
  let w := built (F:=R) example_texts in
  indexed w ∧
  ∃ w' : world R,
    create_term_vectors w = Ok tt w' ∧
    Forall (λ d, length (term_vector (heap w' !!! d)) = 4%nat) [0; 1; 2]%nat.
Proof.
  assert (indexed (built (F:=R) example_texts)) as Hw
    by (vm_compute; repeat constructor; done).
  split; [done|].
  destruct (create_term_vectors_length _ Hw) as (w' & Hrun & Hs & Hall).
  exists w'. split; [done|]. rewrite Hs in Hall.
  eapply Forall_impl; [exact Hall|]. by intros d [-> _].
Defined.

(** The objects that indexing leaves behind: document [i] of the corpus is the
    object [i] of the heap, and holds the TF-IDF vector of the text [i]. *)
Lemma index_corpus_objects {F : Type} `{PyFloat F} `{!PyFloatLaws F} (texts : list str) :
  ∃ w : world F,
    index_corpus texts init_world = Ok tt w ∧ indexed w ∧
    self w = self (built (F:=F) texts) ∧
    ∀ (i : nat) (text : str),
      texts !! i = Some text →
      documents (self w) !! i = Some i ∧
      heap w !!! i = vectorized (self (built (F:=F) texts)) (new_document text).
Proof.
  destruct (create_term_vectors_run (built texts) (built_indexed texts))
    as (w & Hrun & Hs & _ & _ & Hheap).
  exists w. split_and!; [| | done |].
  - unfold index_corpus. rewrite bind_run, read_files_init.
    pose proof (create_df_table_corpus (F:=F) texts) as Hb.
    rewrite bind_run, read_files_init in Hb. rewrite bind_run, Hb. exact Hrun.
  - eapply create_term_vectors_indexed; [apply built_indexed | exact Hrun].
  - intros i text Hi. apply lookup_lt_Some in Hi as Hlt.
    assert (documents (self (built (F:=F) texts)) !! i = Some i) as Hdoc.
    { cbn. by apply lookup_seq_lt. }
    rewrite Hs. split; [done|].
    rewrite Hheap, decide_True by (by eapply list_elem_of_lookup_2).
    cbn [built with_self heap]. by rewrite (corpus_lookup texts i text Hi).
Qed.

(** Cosine similarity over the reals: it is [0] when the dot product is, and
    positive when the dot product and both sums of squares are. *)
Lemma cosine_R_zero (v1 v2 : list R) : dot_product v1 v2 = 0%R → cosine v1 v2 = 0%R.
Proof.
  intros Hd. unfold cosine. rewrite Hd.
  destruct (_ || _); [reflexivity|]. cbn. unfold Rdiv. apply Rmult_0_l.
Qed.

Lemma cosine_R_pos (v1 v2 : list R) :
  (0 < dot_product v1 v2)%R →
  (0 < py_sum (map (λ a, fmul a a) v1))%R →
  (0 < py_sum (map (λ a, fmul a a) v2))%R →
  (0 < cosine v1 v2)%R.
Proof.
  intros Hd H1%sqrt_lt_R0 H2%sqrt_lt_R0. unfold cosine.
  assert (0 < magnitude v1)%R as H1' by exact H1.
  assert (0 < magnitude v2)%R as H2' by exact H2.
  change (feqb (magnitude v1) (of_int 0)) with (bool_decide (magnitude v1 = 0%R)).
  change (feqb (magnitude v2) (of_int 0)) with (bool_decide (magnitude v2 = 0%R)).
  rewrite !bool_decide_eq_false_2 by lra. cbn [orb].
  apply Rdiv_lt_0_compat; [exact Hd|]. by apply Rmult_lt_0_compat.
Qed.

(** The vectors of the example corpus and of the query "trek"; the vocabulary
    is star, wars, trek, the. *)
Lemma example_dot_trek (a b : R) :
  dot_product [0; 0; a; 0]%R [b; 0; a; 0]%R = (a * a)%R.
Proof. unfold dot_product, py_sum. cbn. lra. Qed.

Lemma example_dot_none (a b c x : R) :
  dot_product [0; 0; a; 0]%R [b; c; 0; x]%R = 0%R.
Proof. unfold dot_product, py_sum. cbn. lra. Qed.

Lemma example_sum_squares (b c a x : R) :
  py_sum (map (λ y, fmul y y) [b; c; a; x]) = (b * b + c * c + a * a + x * x)%R.
Proof. unfold py_sum. cbn. lra. Qed.

Lemma ln_3_pos : (0 < (1 + ln 1) * ln (3 / 1))%R.
Proof.
  rewrite ln_1. assert (0 < ln (3 / 1))%R; [|lra].
  rewrite <- ln_1. apply ln_increasing; lra.
Qed.

Lemma example_query_vector :
  map (tfidf (self (built (F:=R) example_texts)) (tokenize (of_string "trek")))
      (term_vector_words (self (built (F:=R) example_texts)))
  = [0; 0; (1 + ln 1) * ln (3 / 1); 0]%R.
Proof. reflexivity. Qed.

Lemma example_document_vectors :
  term_vector (vectorized (self (built (F:=R) example_texts)) (new_document (of_string "star wars")))
  = [(1 + ln 1) * ln (3 / 2); (1 + ln 1) * ln (3 / 2); 0; 0]%R ∧
  term_vector (vectorized (self (built (F:=R) example_texts)) (new_document (of_string "star trek")))
  = [(1 + ln 1) * ln (3 / 2); 0; (1 + ln 1) * ln (3 / 1); 0]%R ∧
  term_vector (vectorized (self (built (F:=R) example_texts)) (new_document (of_string "the wars")))
  = [0; (1 + ln 1) * ln (3 / 2); 0; (1 + ln 1) * ln (3 / 1)]%R.
Proof. split_and!; reflexivity. Qed.

Lemma example_scores (w : world R) (s : R) (idx : Z) (d : nat) :
  self w = self (built (F:=R) example_texts) →
  (∀ (i : nat) (text : str),
     example_texts !! i = Some text →
     documents (self w) !! i = Some i ∧
     heap w !!! i = vectorized (self (built (F:=R) example_texts)) (new_document text)) →
  0 ≤ idx →
  documents (self w) !! Z.to_nat idx = Some d →
  s = cosine (map (tfidf (self w) (tokenize (of_string "trek"))) (term_vector_words (self w)))
             (term_vector (heap w !!! d)) →
  (idx = 1 ∧ (0 < s)%R) ∨ ((idx = 0 ∨ idx = 2) ∧ s = 0%R).
Proof.
  intros Hs Hobj Hidx Hd ->. rewrite Hs, example_query_vector.
  destruct example_document_vectors as (Hv0 & Hv1 & Hv2).
  pose proof ln_3_pos as Ha.
  destruct (Z.to_nat idx) as [|[|[|k]]] eqn:Ek.
  - destruct (Hobj 0%nat _ eq_refl) as [Hd0 Hh0].
    rewrite Hd0 in Hd. injection Hd as <-. rewrite Hh0, Hv0.
    right. split; [lia|]. apply cosine_R_zero, example_dot_none.
  - destruct (Hobj 1%nat _ eq_refl) as [Hd1 Hh1].
    rewrite Hd1 in Hd. injection Hd as <-. rewrite Hh1, Hv1.
    left. split; [lia|]. apply cosine_R_pos.
    + rewrite example_dot_trek. nra.
    + rewrite example_sum_squares. nra.
    + rewrite example_sum_squares.
      pose proof (Rle_0_sqr ((1 + ln 1) * ln (3 / 2))) as Hb. unfold Rsqr in Hb.
      generalize dependent ((1 + ln 1) * ln (3 / 2))%R.
      generalize dependent ((1 + ln 1) * ln (3 / 1))%R.
      intros a Ha b Hb. nra.
  - destruct (Hobj 2%nat _ eq_refl) as [Hd2 Hh2].
    rewrite Hd2 in Hd. injection Hd as <-. rewrite Hh2, Hv2.
    right. split; [lia|]. apply cosine_R_zero, example_dot_none.
  - apply lookup_lt_Some in Hd. rewrite Hs in Hd.
    change (length (documents (self (built (F:=R) example_texts)))) with 3%nat in Hd. lia.
Qed.

(** The corpus indexed by the program itself, queried with "trek": the document
    "star trek" comes first with a positive similarity, the other two follow
    with similarity [0]. *)
Lemma get_results_ranked_witness :
  ∃ w : world R,
    index_corpus example_texts init_world = Ok tt w ∧
    indexed w ∧
    ∃ (res : list (R * Z)) (w' : world R),
      get_results (of_string "trek") w = Ok res w' ∧
      length res = 3%nat ∧
      res.*2 ≡ₚ [0; 1; 2] ∧
      (∀ (i j : nat) a b,
         (i < j)%nat → res !! i = Some a → res !! j = Some b → ¬ (a.1 < b.1)%R) ∧
      (∃ s, res !! 0%nat = Some (s, 1) ∧ (0 < s)%R) ∧
      (0%R, 0) ∈ res ∧ (0%R, 2) ∈ res.
Proof.
  destruct (index_corpus_objects (F:=R) example_texts) as (w & Hrun & Hw & Hs & Hobj).
  exists w. split; [exact Hrun|]. split; [exact Hw|].
  destruct (get_results_ranked (of_string "trek") w Hw)
    as (res & w' & Hres & HN & Hperm & _ & Hscore & Hsorted).
  assert (length (documents (self w)) = 3%nat) as Hlen by (by rewrite Hs).
  rewrite Hlen in Hperm.
  assert (length res = 3%nat) as Hlen3.
  { destruct Hw as (HN' & _). rewrite HN', Hlen in HN. lia. }
  assert (∀ s idx, (s, idx) ∈ res →
            (idx = 1 ∧ (0 < s)%R) ∨ ((idx = 0 ∨ idx = 2) ∧ s = 0%R)) as Hval.
  { intros s idx Hin. destruct (Hscore s idx Hin) as (d & Hidx & Hd & Heq & _).
    by apply (example_scores w s idx d). }
  assert (∀ idx, idx ∈ [0; 1; 2] → ∃ s, (s, idx) ∈ res) as Hex.
  { intros idx Hidx. rewrite <- Hperm in Hidx.
    apply list_elem_of_fmap in Hidx as ([s idx'] & -> & Hin). by exists s. }
  assert (∀ (i j : nat) a b,
            (i < j)%nat → res !! i = Some a → res !! j = Some b → ¬ (a.1 < b.1)%R)
    as Hsorted'.
  { intros i j a b Hij Hi Hj. specialize (Hsorted i j a b Hij Hi Hj).
    by apply bool_decide_eq_false in Hsorted. }
  exists res, w'. split; [exact Hres|]. split; [exact Hlen3|].
  split; [exact Hperm|]. split; [exact Hsorted'|]. split_and!.
  - destruct (lookup_lt_is_Some_2 res 0%nat) as [[s0 i0] H0]; [lia|].
    destruct (Hval s0 i0 (list_elem_of_lookup_2 _ _ _ H0)) as [[-> Hpos]|[Hi0 ->]].
    + exists s0. split; [exact H0 | exact Hpos].
    + exfalso. destruct (Hex 1) as [s1 Hin1].
      { right. left. }
      destruct (Hval s1 1 Hin1) as [[_ Hpos]|[[?|?] _]]; [|lia..].
      apply list_elem_of_lookup_1 in Hin1 as [j Hj].
      destruct j as [|j].
      { rewrite H0 in Hj. injection Hj as _ ->. lia. }
      apply (Hsorted' 0%nat (S j) _ _ (Nat.lt_0_succ j) H0 Hj). exact Hpos.
  - destruct (Hex 0) as [s Hin].
    { left. }
    destruct (Hval s 0 Hin) as [[? _]|[_ ->]]; [lia | exact Hin].
  - destruct (Hex 2) as [s Hin].
    { right. right. left. }
    destruct (Hval s 2 Hin) as [[? _]|[_ ->]]; [lia | exact Hin].
Defined.

Lemma get_results_frame_witness :
  ∃ w : world R,
    index_corpus example_texts init_world = Ok tt w ∧
    indexed w ∧
    ∃ (res : list (R * Z)) (w' : world R),
      get_results (of_string "star wars") w = Ok res w' ∧
      self w' = self w ∧
      Forall (λ d, heap w' !!! d = heap w !!! d) (documents (self w)).
Proof.
  destruct (index_corpus_run (F:=R) example_texts) as (w & Hrun & Hw & Hlen).
  exists w. split_and!; [done..|].
  destruct (get_results_frame (of_string "star wars") w Hw)
    as (res & w' & Hres & Hs & _ & Hheap & _).
  exists res, w'. split_and!; [done..|].
  destruct Hw as (_ & _ & Hdocs). eapply Forall_impl; [exact Hdocs|].
  intros d [Hd _]. by apply Hheap.
Defined.

Lemma get_results_ties_by_index_witness :
  ∃ w : world R,
    index_corpus example_texts init_world = Ok tt w ∧
    indexed w ∧
    ∃ (res : list (R * Z)) (w' : world R),
      get_results (of_string "movie") w = Ok res w' ∧
      ∀ (i j : nat) a b,
        (i < j)%nat → res !! i = Some a → res !! j = Some b → a.1 = b.1 → a.2 < b.2.
Proof.
  destruct (index_corpus_run (F:=R) example_texts) as (w & Hrun & Hw & Hlen).
  exists w. split_and!; [done..|].
  destruct (get_results_ties_by_index (of_string "movie") w Hw) as (res & w' & Hres & Hties).
  exists res, w'. split; [done|].
  intros i j a b Hij Hi Hj. by destruct (Hties i j a b Hij Hi Hj).
Defined.

(** Three documents, and a loop that prints five results. *)
Lemma query_loop_short_corpus_witness :
  ∃ w : world R,
    index_corpus example_texts init_world = Ok tt w ∧
    indexed w ∧
    (length (documents (self w)) < 5)%nat ∧
    query_loop [of_string "star wars"] w = Raise IndexError.
Proof.
  destruct (index_corpus_run (F:=R) example_texts) as (w & Hrun & Hw & Hlen).
  exists w. assert (length (documents (self w)) < 5)%nat as H5 by (rewrite Hlen; cbn; lia).
  split_and!; [done..|].
  exact (query_loop_short_corpus (of_string "star wars") [] w Hw H5).
Defined.

(** With no document at all, no arithmetic is involved: the first query
    ends the program with an [IndexError], whatever the floats are. *)
Example query_loop_empty_corpus {F : Type} `{PyFloat F} (query : str) (inputs : list str) :
  query_loop (F:=F) (query :: inputs) (built []) = Raise IndexError.
Proof. reflexivity. Qed.

(** ** Running the definitions on binary64 floats *)

(** [float(z)]: the integer rounded to the nearest float.  (An integer too
    large for a float gives [infinity] here and [OverflowError] in Python.) *)
Definition float_of_int (z : Z) : PrimFloat.float :=
  FloatOps.SF2Prim (SpecFloat.binary_normalize FloatOps.prec FloatOps.emax z 0 false).

Section Binary64.
Import PrimFloat.

(** [math.log] is the logarithm of the C library. *)
Variable libm_log : float → float.

#[local] Instance PyFloat_binary64 : PyFloat float := {|
  of_int := float_of_int;
  fadd := PrimFloat.add;
  fmul := PrimFloat.mul;
  fdiv := PrimFloat.div;
  fln := libm_log;
  fsqrt := PrimFloat.sqrt;
  feqb := PrimFloat.eqb;
  fltb := PrimFloat.ltb
|}.

(** Two objects with the given term vectors. *)
Definition two_vectors (v1 v2 : list float) : world float :=
  {| heap := [ {| text := []; terms := []; term_vector := v1 |};
               {| text := []; terms := []; term_vector := v2 |} ];
     self := TFIDF_Engine_init; stdout := [] |}.

Example cosine_same_direction :
  let w := two_vectors [3; 4]%float [6; 8]%float in
  calculate_cosine_sim 0 1 w = Ok 1%float w.
Proof. vm_compute. reflexivity. Qed.

Example cosine_orthogonal :
  let w := two_vectors [3; 0]%float [0; 4]%float in
  calculate_cosine_sim 0 1 w = Ok 0%float w.
Proof. vm_compute. reflexivity. Qed.

Example cosine_zero_vector :
  let w := two_vectors [3; 4]%float [0; 0]%float in
  calculate_cosine_sim 0 1 w = Ok 0%float w.
Proof. vm_compute. reflexivity. Qed.

Example sort_by_key_reverse_stable :
  sort_by_key_reverse [(1%float, 0); (2%float, 1); (1%float, 2); (2%float, 3)] =
  [(2%float, 1); (2%float, 3); (1%float, 0); (1%float, 2)].
Proof. vm_compute. reflexivity. Qed.

End Binary64.

(** * Further properties of the code *)

(** ** The tokenizer *)

Lemma lower_char_cases c :
  (65 ≤ c ≤ 90 ∧ lower_char c = c + 32) ∨ (¬ (65 ≤ c ≤ 90) ∧ lower_char c = c).
Proof.
  unfold lower_char.
  destruct (Z.leb_spec 65 c); destruct (Z.leb_spec c 90); simpl; [left | right..]; lia.
Qed.

Lemma is_word_char_upper c : 65 ≤ c ≤ 90 → is_word_char c = true.
Proof.
  intros Hc. unfold is_word_char, re_alnum.
  rewrite (proj2 (Z.leb_le 65 c)), (proj2 (Z.leb_le c 90)) by lia.
  cbn. by rewrite orb_true_r.
Qed.

Lemma is_word_char_lower c : 97 ≤ c ≤ 122 → is_word_char c = true.
Proof.
  intros Hc. unfold is_word_char, re_alnum.
  by rewrite (proj2 (Z.leb_le 97 c)), (proj2 (Z.leb_le c 122)) by lia.
Qed.

Lemma lower_char_idemp c : lower_char (lower_char c) = lower_char c.
Proof.
  destruct (lower_char_cases c) as [[Hc ->]|[Hc ->]].
  - destruct (lower_char_cases (c + 32)) as [[Hc' _]|[_ ->]]; [lia | done].
  - destruct (lower_char_cases c) as [[Hc' _]|[_ ->]]; [lia | done].
Qed.

Lemma lower_char_word c : is_word_char (lower_char c) = is_word_char c.
Proof.
  destruct (lower_char_cases c) as [[Hc ->]|[Hc ->]]; [|done].
  rewrite (is_word_char_upper c) by done. apply is_word_char_lower. lia.
Qed.

Lemma lower_char_not_word c : is_word_char c = false → lower_char c = c.
Proof.
  intros Hw. destruct (lower_char_cases c) as [[Hc _]|[_ ->]]; [|done].
  rewrite is_word_char_upper in Hw by done. done.
Qed.

Lemma lower_idemp s : lower (lower s) = lower s.
Proof.
  unfold lower. rewrite <- list_fmap_compose. apply list_fmap_ext.
  intros i c _. apply lower_char_idemp.
Qed.

Lemma occurrences_elem_of t ts : 0 < occurrences t ts ↔ t ∈ ts.
Proof.
  induction ts as [|t' ts IH].
  - rewrite occurrences_nil. split; [lia | intros ?%elem_of_nil; done].
  - rewrite occurrences_cons, elem_of_cons. pose proof (occurrences_nonneg t ts).
    case_decide; subst; [split; [by left | lia] |].
    rewrite <- IH. split; [intros; right; lia | intros [?|?]; [done | lia]].
Qed.

(** The keys of [tokenize] are the tokens the scan emits. *)
Lemma tokenize_keys text t : t ∈ dict_keys (tokenize text) ↔ t ∈ ref_scan [] text.
Proof.
  rewrite <- dict_mem_keys, dict_mem_get, tokenize_get, <- occurrences_elem_of.
  unfold ref_mapping. pose proof (occurrences_nonneg t (ref_scan [] text)).
  destruct (Z.eqb_spec (occurrences t (ref_scan [] text)) 0) as [E|E].
  - split; [intros [? ?]; done | lia].
  - split; [lia | eauto].
Qed.

(** A word: a non-empty run of the characters [a-z0-9'_-]. *)
Definition word_token (t : str) : Prop :=
  t ≠ [] ∧ Forall (λ c, is_word_char c = true ∧ ¬ (65 ≤ c ≤ 90)) t.

(** A symbol: one character that is neither a word character nor
    whitespace. *)
Definition symbol_token (t : str) : Prop :=
  ∃ c, t = [c] ∧ is_word_char c = false ∧ isspace c = false.

Lemma lower_char_not_upper c : ¬ (65 ≤ lower_char c ≤ 90).
Proof. destruct (lower_char_cases c) as [[Hc ->]|[Hc ->]]; lia. Qed.

Lemma ref_scan_shape run text t :
  Forall (λ c, is_word_char c = true) run →
  t ∈ ref_scan run text → word_token t ∨ symbol_token t.
Proof.
  revert run. induction text as [|c text IH]; intros run Hrun; simpl.
  - destruct run as [|c0 run]; simpl; [by intros ?%elem_of_nil|].
    intros ->%list_elem_of_singleton. left. split; [done|].
    change (Forall (λ c, is_word_char c = true ∧ ¬ 65 ≤ c ≤ 90) (lower (c0 :: run))).
    unfold lower. apply Forall_fmap. eapply Forall_impl; [exact Hrun|].
    intros c' Hc'. cbn. rewrite lower_char_word. split; [done | apply lower_char_not_upper].
  - destruct (is_word_char c) eqn:Ec.
    + apply IH. apply Forall_app. split; [done | by constructor].
    + rewrite !elem_of_app. intros [Ht|[Ht|Ht]].
      * destruct run as [|c0 run]; simpl in Ht; [by apply elem_of_nil in Ht|].
        apply list_elem_of_singleton in Ht as ->. left. split; [done|].
        change (Forall (λ c, is_word_char c = true ∧ ¬ 65 ≤ c ≤ 90) (lower (c0 :: run))).
        unfold lower. apply Forall_fmap. eapply Forall_impl; [exact Hrun|].
        intros c' Hc'. cbn. rewrite lower_char_word.
        split; [done | apply lower_char_not_upper].
      * unfold emit_break in Ht. destruct (isspace c) eqn:Es; [by apply elem_of_nil in Ht|].
        apply list_elem_of_singleton in Ht as ->. right. by exists c.
      * by apply (IH []).
Qed.

(** X1.  Every key of the mapping [tokenize] returns is either a word, a
    non-empty run of lower-case letters, digits, apostrophes, underscores
    and hyphens, or a single character that is neither a word character nor
    whitespace: no key is empty, holds an upper-case ASCII letter or holds
    whitespace. *)
Theorem tokenize_keys_shape (text : str) :
  Forall (λ t, word_token t ∨ symbol_token t) (dict_keys (tokenize text)).
Proof.
  apply Forall_forall. intros t Ht. apply tokenize_keys in Ht.
  by apply (ref_scan_shape [] text).
Qed.

Lemma ref_scan_lower run run' text :
  lower run' = lower run →
  ref_scan run' (lower text) = ref_scan run text.
Proof.
  revert run run'. induction text as [|c text IH]; intros run run' Hrun; simpl.
  - destruct run, run'; simpl in *; try done. by rewrite Hrun.
  - rewrite lower_char_word. destruct (is_word_char c) eqn:Ec.
    + apply IH. unfold lower in *. rewrite !List.map_app, Hrun. cbn.
      by rewrite lower_char_idemp.
    + rewrite lower_char_not_word by done. rewrite (IH [] []) by done.
      f_equal. destruct run, run'; simpl in *; try done. by rewrite Hrun.
Qed.

(** X2.  [tokenize] folds case: lower-casing the ASCII letters of a text
    does not change the mapping, nor the order of its keys. *)
Theorem tokenize_case_insensitive (text : str) :
  tokenize (lower text) = tokenize text.
Proof.
  unfold tokenize. rewrite !tokenize_tokens_ref_scan. by rewrite (ref_scan_lower [] []).
Qed.

Lemma ref_scan_break run a c b :
  is_word_char c = false →
  ref_scan run (a ++ c :: b) = ref_scan run a ++ emit_break c ++ ref_scan [] b.
Proof.
  intros Hc. revert run. induction a as [|c' a IH]; intros run; simpl.
  - by rewrite Hc.
  - destruct (is_word_char c'); [apply IH|]. rewrite (IH []). by rewrite <- !app_assoc.
Qed.

(** The number of times [t] was counted: [d.get(t, 0)]. *)
Definition term_count (t : str) (d : dict) : Z := default 0 (dict_get t d).

Lemma term_count_tokenize t text : term_count t (tokenize text) = occurrences t (ref_scan [] text).
Proof.
  unfold term_count. rewrite tokenize_get. unfold ref_mapping.
  destruct (Z.eqb_spec (occurrences t (ref_scan [] text)) 0) as [->|?]; done.
Qed.

(** X3.  A character that is not a word character separates: the counts of
    a text [a + c + b] are the counts of [a] plus the counts of [b], plus
    one for the token [c] itself unless [c] is whitespace. *)
Theorem tokenize_separator (a b : str) (c : char) (t : str) :
  is_word_char c = false →
  term_count t (tokenize (a ++ c :: b)) =
  term_count t (tokenize a) + term_count t (tokenize b) +
  (if isspace c then 0 else if decide (t = [c]) then 1 else 0).
Proof.
  intros Hc. rewrite !term_count_tokenize, ref_scan_break by done.
  rewrite !occurrences_app. unfold emit_break.
  destruct (isspace c); [rewrite occurrences_nil; lia|].
  rewrite occurrences_cons, occurrences_nil.
  repeat case_decide; subst; try done; lia.
Qed.

Lemma tokenize_separator_witness :
  is_word_char 44 = false ∧
  term_count (of_string ",") (tokenize (of_string "a-b" ++ 44 :: of_string "c, d")) = 2.
Proof.
  split; [reflexivity|].
  exact (eq_trans
    (tokenize_separator (of_string "a-b") (of_string "c, d") 44 (of_string ",") eq_refl)
    eq_refl).
Defined.

(** ** Reading and indexing *)

Section MoreIndex.
Context {F : Type}.

(** X4.  [read_files] is cumulative: on any state it creates one object per
    text, after the existing ones and in the order of the texts, each with
    its text, the counts of [tokenize] and an empty term vector; it appends
    them to [documents], sets [N] to the number of all documents, those of
    earlier calls included, and leaves the existing objects, [df_table] and
    the vocabulary as they are. *)
Theorem read_files_appends (texts : list str) (w : world F) :
  ∃ w' : world F,
    read_files texts w = Ok tt w' ∧
    heap w' = heap w ++ map new_document texts ∧
    documents (self w') = documents (self w) ++ seq (length (heap w)) (length texts) ∧
    N (self w') = Z.of_nat (length (documents (self w)) + length texts) ∧
    df_table (self w') = df_table (self w) ∧
    term_vector_words (self w') = term_vector_words (self w) ∧
    stdout w' = stdout w.
Proof.
  eexists. split.
  { unfold read_files. rewrite bind_run, read_files_loop.
    unfold get_self, set_N, get_self, set_self. rewrite !bind_run. reflexivity. }
  cbn. split_and!; try done. by rewrite length_app, length_seq.
Qed.

Lemma elem_of_mentions (w : world F) (docs : list loc) (t : str) :
  t ∈ mentions w docs ↔ ∃ d, d ∈ docs ∧ dict_mem t (terms (heap w !!! d)) = true.
Proof.
  unfold mentions. induction docs as [|d docs IH]; cbn [map concat].
  - split; [by intros ?%elem_of_nil | by intros (? & ?%elem_of_nil & _)].
  - rewrite elem_of_app, IH, <- dict_mem_keys. split.
    + intros [Ht|(d' & Hd' & Ht)]; [exists d | exists d']; split; try done;
        [by left | by right].
    + intros (d' & [->|Hd']%elem_of_cons & Ht); [by left | right; by exists d'].
Qed.

Lemma fold_count_keys (ts : list str) (d : dict) (t : str) :
  t ∈ dict_keys (fold_left dict_count ts d) ↔ t ∈ dict_keys d ∨ t ∈ ts.
Proof.
  revert d. induction ts as [|t' ts IH]; intros d; simpl.
  - split; [by left | by intros [?|?%elem_of_nil]].
  - rewrite IH, dict_keys_count, elem_of_cons.
    destruct (dict_mem t' d) eqn:E.
    + apply dict_mem_keys in E. split; [intros [?|?]; eauto|].
      intros [?|[->|?]]; eauto.
    + rewrite elem_of_app, list_elem_of_singleton. split.
      * intros [[?|?]|?]; eauto.
      * intros [?|[?|?]]; eauto.
Qed.

(** X5.  The vocabulary that [create_df_table] builds holds exactly the
    tokens of the texts: a term is in [term_vector_words] if and only if it
    is a key of [tokenize(text)] for some text of the corpus. *)
Theorem vocabulary_complete (texts : list str) :
  ∃ w : world F,
    (read_files texts ;; create_df_table) init_world = Ok tt w ∧
    ∀ t, t ∈ term_vector_words (self w) ↔
         ∃ text, text ∈ texts ∧ t ∈ dict_keys (tokenize text).
Proof.
  exists (built texts). split; [apply create_df_table_corpus|].
  intros t. cbn [built with_self self term_vector_words]. unfold df_table_of.
  rewrite fold_count_keys, elem_of_mentions. cbn [dict_keys map]. split.
  - intros [?%elem_of_nil|(d & Hd & Ht)]; [done|].
    destruct (corpus_documents (F:=F) texts d Hd) as (text & Htext & Hdoc).
    exists text. split; [by eapply list_elem_of_lookup_2|].
    rewrite Hdoc in Ht. by apply dict_mem_keys.
  - intros (text & [d Hd]%list_elem_of_lookup_1 & Ht). right. exists d. split.
    + apply elem_of_seq. apply lookup_lt_Some in Hd. lia.
    + rewrite (corpus_lookup (F:=F) texts d text Hd). by apply dict_mem_keys.
Qed.

Lemma fold_count_keys_same (ts : list str) (d : dict) :
  Forall (λ t, t ∈ dict_keys d) ts →
  dict_keys (fold_left dict_count ts d) = dict_keys d.
Proof.
  revert d. induction ts as [|t ts IH]; intros d Hts; simpl; [done|].
  apply Forall_cons in Hts as [Ht Hts].
  assert (dict_keys (dict_count d t) = dict_keys d) as Hk.
  { rewrite dict_keys_count. by apply dict_mem_keys in Ht as ->. }
  rewrite IH, Hk; [done|]. by rewrite Hk.
Qed.

(** X6.  [create_df_table] does not reset [df_table]: run a second time on
    the same corpus, it keeps the vocabulary and doubles every document
    frequency, which then exceeds [N] for a term that more than half of the
    documents contain. *)
Theorem create_df_table_twice (texts : list str) :
  ∃ w : world F,
    (read_files texts ;; create_df_table ;; create_df_table) init_world = Ok tt w ∧
    N (self w) = Z.of_nat (length texts) ∧
    term_vector_words (self w) = term_vector_words (self (built (F:=F) texts)) ∧
    ∀ t, t ∈ term_vector_words (self w) →
         dict_get t (df_table (self w)) = Some (2 * document_frequency (built (F:=F) texts) t).
Proof.
  eexists. split.
  { rewrite bind_run, read_files_init.
    pose proof (create_df_table_corpus (F:=F) texts) as Hb.
    rewrite bind_run, read_files_init in Hb. rewrite bind_run, Hb.
    apply create_df_table_run. }
  cbn [with_self self N term_vector_words df_table built heap documents].
  assert (dict_keys (fold_left dict_count
            (mentions (built (F:=F) texts) (seq 0 (length texts))) (df_table_of (F:=F) texts))
          = dict_keys (df_table_of (F:=F) texts)) as Hkeys.
  { apply fold_count_keys_same. apply Forall_forall. intros t Ht.
    unfold df_table_of. apply fold_count_keys. by right. }
  split_and!; [done | exact Hkeys |].
  intros t Ht.
  change (mentions (with_self _ (corpus texts)) (seq 0 (length texts)))
    with (mentions (built (F:=F) texts) (seq 0 (length texts))) in *.
  rewrite Hkeys in Ht.
  destruct (built_df_table texts t Ht) as [Hdf _].
  cbn [built with_self self df_table] in Hdf.
  rewrite dict_get_fold_count, Hdf. f_equal.
  assert (dict_get t (df_table_of (F:=F) texts) =
          Some (occurrences t (mentions (corpus (F:=F) texts) (seq 0 (length texts)))))
    as Hocc.
  { unfold df_table_of. rewrite dict_get_fold_count. cbn [dict_get].
    unfold df_table_of in Hdf. rewrite dict_get_fold_count in Hdf. cbn [dict_get] in Hdf.
    by destruct (_ =? 0). }
  rewrite Hdf in Hocc. injection Hocc as Hocc.
  change (mentions (built texts) (seq 0 (length texts)))
    with (mentions (corpus (F:=F) texts) (seq 0 (length texts))).
  rewrite <- Hocc. lia.
Qed.

End MoreIndex.

(** ** Vectors *)

Section MoreVectors.
Context {F : Type} `{PyFloat F} `{!PyFloatLaws F}.

Lemma with_doc_id (d : loc) (w : world F) :
  (d < length (heap w))%nat → with_doc d (heap w !!! d) w = w.
Proof.
  intros Hd. destruct w as [h e o]. unfold with_doc. cbn in *. f_equal.
  apply list_insert_id. by apply list_lookup_lookup_total_lt.
Qed.

(** Vectorizing documents that already hold their vectors changes
    nothing. *)
Lemma term_vectors_loop_fixed (ds : list loc) (w : world F) :
  index_ok (self w) →
  Forall (λ d, (d < length (heap w))%nat ∧ counts_positive (terms (heap w !!! d)) ∧
               vectorized (self w) (heap w !!! d) = heap w !!! d) ds →
  for_each ds create_term_vector w = Ok tt w.
Proof.
  intros Hok. induction 1 as [|d ds (Hd & Hpos & Hv) Hds IH]; [done|].
  cbn [for_each]. rewrite bind_run, create_term_vector_run by done.
  by rewrite Hv, with_doc_id.
Qed.

(** X7.  [create_term_vectors] is idempotent on an indexed corpus: a second
    run recomputes the same vectors and leaves the state as the first run
    left it. *)
Theorem create_term_vectors_idempotent (w : world F) :
  indexed w →
  ∃ w1 : world F,
    create_term_vectors w = Ok tt w1 ∧
    create_term_vectors w1 = Ok tt w1 ∧
    (create_term_vectors ;; create_term_vectors) w = Ok tt w1.
Proof.
  intros Hw. destruct (create_term_vectors_run w Hw) as (w1 & Hrun & Hs & _ & Hlen & Hheap).
  assert (create_term_vectors w1 = Ok tt w1) as Hrun1.
  { unfold create_term_vectors. rewrite bind_run. unfold get_self at 1.
    destruct Hw as (_ & Hok & Hdocs). apply term_vectors_loop_fixed; rewrite Hs; [done|].
    rewrite Forall_forall in Hdocs |- *. intros d Hd. destruct (Hdocs d Hd) as [Hlt Hpos].
    rewrite Hheap, decide_True by done. by rewrite Hlen. }
  exists w1. split_and!; [done..|]. by rewrite bind_run, Hrun.
Qed.

(** X8.  Indexing gives a document the vector that a query with the same
    text gets: after [index_corpus], the object of the [i]-th text is
    identical to the query document [get_results] would build for that text,
    term vector included. *)
Theorem document_vector_is_query_vector (texts : list str) :
  ∃ w : world F,
    index_corpus texts init_world = Ok tt w ∧
    ∀ (i : nat) (text : str),
      texts !! i = Some text →
      documents (self w) !! i = Some i ∧
      heap w !!! i = query_document (self w) text.
Proof.
  destruct (create_term_vectors_run (built texts) (built_indexed texts))
    as (w & Hrun & Hs & _ & _ & Hheap).
  exists w. split.
  { unfold index_corpus. rewrite bind_run, read_files_init.
    pose proof (create_df_table_corpus (F:=F) texts) as Hb.
    rewrite bind_run, read_files_init in Hb. rewrite bind_run, Hb. exact Hrun. }
  intros i text Hi. apply lookup_lt_Some in Hi as Hlt.
  assert (documents (self (built (F:=F) texts)) !! i = Some i) as Hdoc.
  { cbn. by apply lookup_seq_lt. }
  rewrite Hs. split; [done|].
  rewrite Hheap, decide_True by (by eapply list_elem_of_lookup_2).
  cbn [built with_self heap]. by rewrite (corpus_lookup texts i text Hi).
Qed.

End MoreVectors.

(** ** Similarity *)

Section MoreCosine.
Context {F : Type} `{PyFloat F} `{!PyFloatLaws F}.

(** Multiplication commutes. *)
Hypothesis fmul_comm : ∀ x y : F, fmul x y = fmul y x.

Lemma dot_product_comm (v1 v2 : list F) : dot_product v1 v2 = dot_product v2 v1.
Proof.
  unfold dot_product. f_equal. revert v2.
  induction v1 as [|a v1 IH]; intros [|b v2]; cbn; [done..|].
  by rewrite fmul_comm, IH.
Qed.

(** X9.  [calculate_cosine_sim] is symmetric: exchanging the two documents
    gives the same similarity. *)
Theorem calculate_cosine_sim_symmetric (d1 d2 : loc) (w : world F) :
  calculate_cosine_sim d1 d2 w = calculate_cosine_sim d2 d1 w.
Proof.
  rewrite !calculate_cosine_sim_run. f_equal. unfold cosine.
  by rewrite orb_comm, dot_product_comm, fmul_comm.
Qed.

End MoreCosine.

Lemma calculate_cosine_sim_symmetric_witness :
  let w : world R :=
    {| heap := [ {| text := []; terms := []; term_vector := [3; 4]%R |};
                 {| text := []; terms := []; term_vector := [1; 2]%R |} ];
       self := TFIDF_Engine_init; stdout := [] |} in
  calculate_cosine_sim 0 1 w = calculate_cosine_sim 1 0 w.
Proof.
  intros w. exact (calculate_cosine_sim_symmetric Rmult_comm 0%nat 1%nat w).
Defined.

Lemma create_term_vectors_idempotent_witness :
  let w := built (F:=R) example_texts in
  indexed w ∧
  ∃ w1 : world R,
    create_term_vectors w = Ok tt w1 ∧ create_term_vectors w1 = Ok tt w1.
Proof.
  assert (indexed (built (F:=R) example_texts)) as Hw
    by (vm_compute; repeat constructor; done).
  split; [done|].
  destruct (create_term_vectors_idempotent _ Hw) as (w1 & H1 & H2 & _).
  by exists w1.
Defined.

Lemma document_vector_is_query_vector_witness :
  ∃ w : world R,
    index_corpus example_texts init_world = Ok tt w ∧
    heap w !!! 1%nat = query_document (self w) (of_string "star trek").
Proof.
  destruct (document_vector_is_query_vector (F:=R) example_texts) as (w & Hrun & Hdocs).
  exists w. split; [done|]. by destruct (Hdocs 1%nat (of_string "star trek") eq_refl).
Defined.

(** ** Ranking *)

Section MoreRanking.
Context {F : Type} `{PyFloat F} `{!PyFloatLaws F}.

(** The list [get_results] returns, as a function of the state. *)
Definition ranking (query : str) (w : world F) : list (F * Z) :=
  sort_by_key_reverse
    (scores (term_vector (query_document (self w) query)) w (documents (self w))).

Lemma get_results_ranking (query : str) (w : world F) :
  indexed w → get_results query w = Ok (ranking query w) (after_query query w).
Proof. apply get_results_run. Qed.

(** [w1] is [w] after some queries and prints: the same engine, and the
    same objects followed by new ones. *)
Definition extends (w w1 : world F) : Prop :=
  self w1 = self w ∧ ∃ extra, heap w1 = heap w ++ extra.

Lemma extends_refl (w : world F) : extends w w.
Proof. split; [done|]. exists []. by rewrite app_nil_r. Qed.

Lemma extends_lookup (w w1 : world F) (d : loc) :
  extends w w1 → (d < length (heap w))%nat → heap w1 !!! d = heap w !!! d.
Proof. intros [_ [extra ->]] Hd. by apply lookup_total_app_l. Qed.

Lemma extends_indexed (w w1 : world F) : indexed w → extends w w1 → indexed w1.
Proof.
  intros (HN & Hok & Hdocs) Hext. pose proof Hext as [Hs [extra Hh]].
  unfold indexed. rewrite Hs. split_and!; [done..|].
  eapply Forall_impl; [exact Hdocs|]. intros d [Hd Hpos]. split.
  - rewrite Hh, length_app. lia.
  - by rewrite (extends_lookup w w1).
Qed.

Lemma extends_after_query (query : str) (w w1 : world F) :
  extends w w1 → extends w (after_query query w1).
Proof.
  intros [Hs [extra Hh]]. split; [done|]. exists (extra ++ [query_document (self w1) query]).
  cbn. by rewrite Hh, app_assoc.
Qed.

(** The ranking only depends on the engine and on the documents. *)
Lemma ranking_extends (query : str) (w w1 : world F) :
  indexed w → extends w w1 → ranking query w1 = ranking query w.
Proof.
  intros (_ & _ & Hdocs) Hext. pose proof Hext as [Hs _].
  unfold ranking. rewrite Hs. f_equal. unfold scores. apply imap_ext.
  intros i d Hd. cbn. rewrite (extends_lookup w w1); [done..|].
  rewrite Forall_forall in Hdocs. apply Hdocs. by eapply list_elem_of_lookup_2.
Qed.

(** X10.  The answer to a query does not depend on the queries made before
    it: after any query [q1], a query [q2] gets the list it would have got
    first. *)
Theorem get_results_independent_of_history (q1 q2 : str) (w : world F) :
  indexed w →
  ∃ (r1 r2 : list (F * Z)) (w1 w2 w2' : world F),
    get_results q1 w = Ok r1 w1 ∧
    get_results q2 w1 = Ok r2 w2 ∧
    get_results q2 w = Ok r2 w2'.
Proof.
  intros Hw.
  assert (extends w (after_query q1 w)) as Hext
    by apply extends_after_query, extends_refl.
  exists (ranking q1 w), (ranking q2 w), (after_query q1 w),
    (after_query q2 (after_query q1 w)), (after_query q2 w).
  split_and!; [by apply get_results_ranking | | by apply get_results_ranking].
  rewrite get_results_ranking by (by eapply extends_indexed).
  by rewrite (ranking_extends q2 w).
Qed.

(** *** Queries whose vector is zero *)

Lemma sort_insert_tie (k : F) (x : F * Z) (acc : list (F * Z)) :
  x.1 = k → Forall (λ y, y.1 = k) acc → sort_insert x acc = acc ++ [x].
Proof.
  intros Hx. induction 1 as [|y acc Hy Hacc IH]; [done|].
  cbn. rewrite Hx, Hy, fltb_irrefl. by rewrite IH.
Qed.

Lemma fold_insert_ties (k : F) (l acc : list (F * Z)) :
  Forall (λ y, y.1 = k) acc → Forall (λ y, y.1 = k) l →
  fold_left (λ acc x, sort_insert x acc) l acc = acc ++ l.
Proof.
  intros Hacc Hl. revert acc Hacc. induction Hl as [|x l Hx Hl IH]; intros acc Hacc; cbn.
  - by rewrite app_nil_r.
  - rewrite (sort_insert_tie k) by done. rewrite IH.
    + by rewrite <- app_assoc.
    + apply Forall_app. split; [done | by constructor].
Qed.

(** A list whose keys are all the same is left in its order. *)
Lemma sort_by_key_reverse_ties (k : F) (l : list (F * Z)) :
  Forall (λ y, y.1 = k) l → sort_by_key_reverse l = l.
Proof.
  intros Hl. unfold sort_by_key_reverse, sort_by_key.
  rewrite (fold_insert_ties k); [|constructor | by apply Forall_reverse].
  cbn. apply reverse_involutive.
Qed.

(** The list of results in which every similarity is [0]. *)
Definition zero_scores (docs : list loc) : list (F * Z) :=
  imap (λ i _, (of_int 0, Z.of_nat i)) docs.

Lemma ranking_zero_vector (query : str) (w : world F) :
  Forall (λ t, tfidf (self w) (tokenize query) t = of_int 0) (term_vector_words (self w)) →
  ranking query w = zero_scores (documents (self w)).
Proof.
  intros Hz. unfold ranking.
  assert (term_vector (query_document (self w) query) =
          replicate (length (term_vector_words (self w))) (of_int 0)) as ->.
  { cbn. induction Hz as [|t ts Ht Hts IH]; [done|]. cbn. by rewrite Ht, IH. }
  assert (scores (replicate (length (term_vector_words (self w))) (of_int 0)) w
                 (documents (self w)) = zero_scores (documents (self w))) as ->.
  { unfold scores, zero_scores. apply imap_ext. intros i d _. by rewrite cosine_zero_l. }
  apply (sort_by_key_reverse_ties (of_int 0)).
  apply Forall_forall. intros x (i & d & -> & _)%elem_of_lookup_imap. done.
Qed.

(** X11.  A query none of whose tokens is in the vocabulary (the empty
    query, or any query made before [create_df_table]) is not an error:
    [get_results] returns every document with the similarity [0], in the
    order of the documents. *)
Theorem get_results_out_of_vocabulary (query : str) (w : world F) :
  indexed w →
  Forall (λ t, dict_get t (tokenize query) = None) (term_vector_words (self w)) →
  ∃ w' : world F, get_results query w = Ok (zero_scores (documents (self w))) w'.
Proof.
  intros Hw Hq. eexists. rewrite get_results_ranking by done.
  rewrite ranking_zero_vector; [done|].
  eapply Forall_impl; [exact Hq|]. intros t Ht. unfold tfidf. by rewrite Ht.
Qed.

End MoreRanking.

Section ExactArithmetic.
Context {F : Type} `{PyFloat F} `{!PyFloatLaws F}.

(** [n / n] is [1], [math.log(1)] is [0] and [x * 0] is [0]. *)
Hypothesis fdiv_same : ∀ n, 0 < n → fdiv (of_int n) (of_int n) = of_int 1.
Hypothesis fln_1 : fln (of_int 1) = of_int 0.
Hypothesis fmul_0_r : ∀ x : F, fmul x (of_int 0) = of_int 0.

(** X12.  When every term of the vocabulary occurs in every document, as
    in a corpus of a single document, every weight is
    [(1 + ln c) * ln (N / N) = 0]: whatever the query, [get_results] returns
    every document with the similarity [0]. *)
Theorem get_results_no_rare_term (query : str) (w : world F) :
  indexed w →
  Forall (λ t, dict_get t (df_table (self w)) = Some (N (self w)))
         (term_vector_words (self w)) →
  ∃ w' : world F, get_results query w = Ok (zero_scores (documents (self w))) w'.
Proof.
  intros Hw Hall. eexists. rewrite get_results_ranking by done.
  rewrite ranking_zero_vector; [done|].
  destruct Hw as (_ & Hok & _). unfold index_ok in Hok.
  rewrite Forall_forall in Hall, Hok |- *. intros t Ht.
  specialize (Hall t Ht). specialize (Hok t Ht). rewrite Hall in Hok.
  unfold tfidf. rewrite Hall. destruct (dict_get t (tokenize query)); [|done].
  by rewrite fdiv_same, fln_1, fmul_0_r by lia.
Qed.

End ExactArithmetic.

(** ** [query_loop] with enough documents *)

Section MoreQueryLoop.
Context {F : Type} `{PyFloat F} `{!PyFloatLaws F}.

(** The state after some lines were printed. *)
Definition add_lines (ls : list (output F)) (w : world F) : world F :=
  {| heap := heap w; self := self w; stdout := stdout w ++ ls |}.

(** The two lines [query_loop] prints for the [i]-th of the results [r]:
    its rank and score, and the preview of its document. *)
Definition result_lines (w : world F) (r : list (F * Z)) (i : nat) : list (output F) :=
  match r !! i with
  | Some (s, idx) =>
      [ResultScore (Z.of_nat i) s;
       ResultDocument (Document_str (heap w !!! (documents (self w) !!! Z.to_nat idx)))]
  | None => []
  end.

(** What [query_loop] prints for one query: an empty line, the header, and
    the five best results. *)
Definition display (w : world F) (query : str) : list (output F) :=
  [Blank; ResultsHeader] ++ concat (map (result_lines w (ranking query w)) (seq 0 5)).

Lemma add_lines_add_lines (l1 l2 : list (output F)) (w : world F) :
  add_lines l2 (add_lines l1 w) = add_lines (l1 ++ l2) w.
Proof. unfold add_lines. cbn. by rewrite app_assoc. Qed.

Lemma extends_add_lines (ls : list (output F)) (w w1 : world F) :
  extends w w1 → extends w (add_lines ls w1).
Proof. by intros [Hs Hh]. Qed.

(** The results name documents of the corpus. *)
Lemma ranking_valid (query : str) (w : world F) (s : F) (idx : Z) :
  (s, idx) ∈ ranking query w →
  ∃ (i : nat) (d : loc), idx = Z.of_nat i ∧ documents (self w) !! i = Some d.
Proof.
  unfold ranking. rewrite sort_by_key_reverse_perm.
  intros [i Hi]%list_elem_of_lookup_1.
  apply scores_lookup in Hi as (d & Hd & [= -> ->]). by exists i, d.
Qed.

Lemma ranking_length (query : str) (w : world F) :
  length (ranking query w) = length (documents (self w)).
Proof.
  unfold ranking. rewrite sort_by_key_reverse_perm. unfold scores. by rewrite length_imap.
Qed.

(** The loop over [range(5)], from [k] on, when the results suffice. *)
Lemma display_loop_run (w : world F) (r : list (F * Z)) (k m : nat) (w1 : world F) :
  indexed w → extends w w1 →
  (∀ s idx, (s, idx) ∈ r →
     ∃ (i : nat) (d : loc), idx = Z.of_nat i ∧ documents (self w) !! i = Some d) →
  (k + m ≤ length r)%nat →
  for_each (map Z.of_nat (seq k m)) (λ i,
    r0 ← list_index r i;
    print (ResultScore i r0.1);;
    r' ← list_index r i;
    e ← get_self;
    doc ← list_index (documents e) r'.2;
    d ← load doc;
    print (ResultDocument (Document_str d))) w1
  = Ok tt (add_lines (concat (map (result_lines w r) (seq k m))) w1).
Proof.
  intros Hw Hext Hvalid. revert k w1 Hext. induction m as [|m IH]; intros k w1 Hext Hk.
  - cbn. unfold add_lines. rewrite app_nil_r. by destruct w1.
  - destruct (lookup_lt_is_Some_2 r k) as [[s idx] Hr]; [lia|].
    destruct (Hvalid s idx) as (i & d & -> & Hd); [by eapply list_elem_of_lookup_2|].
    pose proof Hext as [Hs _].
    cbn [seq map for_each concat]. rewrite bind_run, bind_run, list_index_nat, Hr.
    rewrite bind_run. unfold print at 1. rewrite bind_run, list_index_nat, Hr.
    rewrite bind_run. unfold get_self at 1. rewrite bind_run. cbn [self snd].
    replace (documents (self w1)) with (documents (self w)) by (by rewrite Hs).
    rewrite list_index_nat, Hd.
    rewrite bind_run. unfold load at 1, print at 1. cbn [heap].
    rewrite IH; [| by destruct Hext | lia].
    f_equal. unfold result_lines at 2. rewrite Hr, Nat2Z.id.
    rewrite (list_lookup_total_correct _ _ _ Hd).
    rewrite (extends_lookup w w1) by
      (done || (destruct Hw as (_ & _ & Hdocs); rewrite Forall_forall in Hdocs;
                apply Hdocs; by eapply list_elem_of_lookup_2)).
    unfold add_lines. cbn. by rewrite <- !app_assoc.
Qed.

Lemma query_loop_body_run (w : world F) (inputs : list str) (w1 : world F) :
  indexed w → (5 ≤ length (documents (self w)))%nat → extends w w1 →
  ∃ w1' : world F,
    query_loop_body inputs w1 = Ok tt w1' ∧
    extends w w1' ∧
    stdout w1' = stdout w1 ++ concat (map (display w) inputs) ++ [Blank].
Proof.
  intros Hw H5. revert w1. induction inputs as [|query inputs IH]; intros w1 Hext.
  - exists (add_lines [Blank] w1). split_and!; [done | by apply extends_add_lines | done].
  - cbn [query_loop_body]. rewrite bind_run. unfold print at 1.
    change {| heap := heap w1; self := self w1; stdout := stdout w1 ++ [Blank] |}
      with (add_lines [Blank] w1).
    assert (extends w (add_lines [Blank] w1)) as Hext1 by (by apply extends_add_lines).
    rewrite bind_run, get_results_ranking by (by eapply extends_indexed).
    rewrite (ranking_extends query w) by done.
    rewrite bind_run. unfold print at 1. rewrite bind_run.
    change (range 5) with (map Z.of_nat (seq 0 5)).
    match goal with
    | |- context [for_each _ _ ?w0] =>
        assert (extends w w0) as Hext2
          by (apply (extends_add_lines [ResultsHeader] w), extends_after_query, Hext1)
    end.
    rewrite (display_loop_run w); [| done | done | apply ranking_valid |
      rewrite ranking_length; cbn; lia].
    match goal with
    | |- context [query_loop_body inputs ?w0] =>
        destruct (IH w0) as (w1' & Hrun & Hext' & Hout);
          [by apply extends_add_lines |]
    end.
    exists w1'. split_and!; [done..|].
    rewrite Hout. cbn [map concat stdout add_lines after_query display].
    by rewrite <- !app_assoc.
Qed.

(** X13.  With an indexed corpus of at least five documents [query_loop]
    does not raise: for each line of input it prints an empty line, the
    header and the five best results of [get_results] (rank and score, then
    the first 500 characters of the document), and at the end of the input
    an empty line and the farewell.  It leaves the engine and the documents
    as they were. *)
Theorem query_loop_prints_top_five (inputs : list str) (w : world F) :
  indexed w →
  (5 ≤ length (documents (self w)))%nat →
  ∃ w' : world F,
    query_loop inputs w = Ok tt w' ∧
    stdout w' =
      stdout w ++ [Welcome] ++ concat (map (display w) inputs) ++ [Blank; SoLong] ∧
    self w' = self w ∧
    ∀ d, (d < length (heap w))%nat → heap w' !!! d = heap w !!! d.
Proof.
  intros Hw H5. unfold query_loop. rewrite bind_run. unfold print at 1.
  destruct (query_loop_body_run w inputs (add_lines [Welcome] w) Hw H5)
    as (w1 & Hrun & Hext & Hout); [apply extends_add_lines, extends_refl|].
  rewrite bind_run. unfold add_lines in Hrun at 1. rewrite Hrun.
  eexists. split; [reflexivity|]. cbn [stdout self heap]. split_and!.
  - rewrite Hout. cbn. by rewrite <- !app_assoc.
  - by destruct Hext.
  - intros d Hd. by apply (extends_lookup w w1).
Qed.

End MoreQueryLoop.

(** ** The further properties on small corpora, over the real numbers *)

Lemma index_corpus_built {F : Type} `{PyFloat F} `{!PyFloatLaws F} (texts : list str) :
  ∃ w : world F,
    index_corpus texts init_world = Ok tt w ∧ indexed w ∧ self w = self (built (F:=F) texts).
Proof.
  destruct (create_term_vectors_run (built texts) (built_indexed texts))
    as (w & Hrun & Hs & _).
  exists w. split_and!; [| | done].
  - unfold index_corpus. rewrite bind_run, read_files_init.
    pose proof (create_df_table_corpus (F:=F) texts) as Hb.
    rewrite bind_run, read_files_init in Hb. rewrite bind_run, Hb. exact Hrun.
  - eapply create_term_vectors_indexed; [apply built_indexed | exact Hrun].
Qed.

Definition five_texts : list str :=
  [of_string "star wars"; of_string "star trek"; of_string "the wars";
   of_string "a new hope"; of_string "the trek home"].

Lemma get_results_independent_of_history_witness :
  ∃ w : world R,
    index_corpus example_texts init_world = Ok tt w ∧
    indexed w ∧
    ∃ (r1 r2 : list (R * Z)) (w1 w2 w2' : world R),
      get_results (of_string "star") w = Ok r1 w1 ∧
      get_results (of_string "trek") w1 = Ok r2 w2 ∧
      get_results (of_string "trek") w = Ok r2 w2'.
Proof.
  destruct (index_corpus_run (F:=R) example_texts) as (w & Hrun & Hw & _).
  exists w. split_and!; [done..|].
  exact (get_results_independent_of_history (of_string "star") (of_string "trek") w Hw).
Defined.

Lemma get_results_out_of_vocabulary_witness :
  ∃ w : world R,
    index_corpus example_texts init_world = Ok tt w ∧
    indexed w ∧
    Forall (λ t, dict_get t (tokenize (of_string "movie")) = None)
           (term_vector_words (self w)) ∧
    ∃ w' : world R,
      get_results (of_string "movie") w = Ok [(0%R, 0); (0%R, 1); (0%R, 2)] w'.
Proof.
  destruct (index_corpus_built (F:=R) example_texts) as (w & Hrun & Hw & Hs).
  assert (Forall (λ t, dict_get t (tokenize (of_string "movie")) = None)
                 (term_vector_words (self w))) as Hq
    by (rewrite Hs; vm_compute; repeat constructor).
  exists w. split_and!; [done..|].
  destruct (get_results_out_of_vocabulary (of_string "movie") w Hw Hq) as (w' & Hres).
  exists w'. rewrite Hres, Hs. reflexivity.
Defined.

Lemma get_results_no_rare_term_witness :
  ∃ w : world R,
    index_corpus [of_string "star wars"] init_world = Ok tt w ∧
    indexed w ∧
    Forall (λ t, dict_get t (df_table (self w)) = Some (N (self w)))
           (term_vector_words (self w)) ∧
    ∃ w' : world R, get_results (of_string "star wars") w = Ok [(0%R, 0)] w'.
Proof.
  destruct (index_corpus_built (F:=R) [of_string "star wars"]) as (w & Hrun & Hw & Hs).
  assert (Forall (λ t, dict_get t (df_table (self w)) = Some (N (self w)))
                 (term_vector_words (self w))) as Hall
    by (rewrite Hs; vm_compute; repeat constructor).
  exists w. split_and!; [done..|].
  assert (∀ n : Z, 0 < n → (IZR n / IZR n)%R = 1%R) as Hdiv.
  { intros n Hn%IZR_lt. field. lra. }
  destruct (get_results_no_rare_term (H:=PyFloat_R) Hdiv ln_1 Rmult_0_r
              (of_string "star wars") w Hw Hall) as (w' & Hres).
  exists w'. rewrite Hres, Hs. reflexivity.
Defined.

Lemma query_loop_prints_top_five_witness :
  ∃ w : world R,
    index_corpus five_texts init_world = Ok tt w ∧
    indexed w ∧
    (5 ≤ length (documents (self w)))%nat ∧
    ∃ w' : world R,
      query_loop [of_string "star wars"; of_string "home"] w = Ok tt w' ∧
      self w' = self w.
Proof.
  destruct (index_corpus_run (F:=R) five_texts) as (w & Hrun & Hw & Hlen).
  assert (5 ≤ length (documents (self w)))%nat as H5
    by (rewrite Hlen; apply Nat.le_refl).
  exists w. split; [exact Hrun|]. split; [exact Hw|]. split; [exact H5|].
  destruct (query_loop_prints_top_five [of_string "star wars"; of_string "home"] w Hw H5)
    as (w' & Hq & _ & Hs & _).
  exists w'. split; [exact Hq | exact Hs].
Defined.
